(** * Route densification: great-circle distance and waypoint interpolation

    A shallow embedding of the two route generators of the repository,
    [generate_coordinates.py] (Berlin - Munich, 50 m spacing, padded or cut
    to 1000 points) and [generate_wronki_gniezno_route.py] (Wronki - Gniezno,
    10 m spacing).  Both scripts share [haversine_distance] and
    [interpolate_points] verbatim, and the same accumulate-then-filter body
    of [generate_route_coordinates]; the Berlin script adds a gap-filling
    [while] loop and a final slice.

    Number model.  Python floats are read as real numbers ([R]): every
    arithmetic operation is exact and [math.sin], [math.cos], [math.asin],
    [math.sqrt] are the mathematical functions.  Python integers are [Z].
    Rounding, overflow and underflow of IEEE doubles are outside this model.
    The loops of [generate_route_coordinates] use the distance only through
    the outcome of its comparisons with the spacing and gap constants.

    Error model.  The exceptions the code can raise on its own data
    paths, [IndexError] (subscript of an empty list), [ZeroDivisionError]
    and [ValueError] (the domain error of [math.sqrt] and [math.asin]),
    are values of [exn]; a computation is a [result]. *)

From Stdlib Require Import Reals Machin Zfloor Lra Lia ZArith List Bool.
Import ListNotations.

Local Open Scope R_scope.

(** ** Python prelude *)

Module Py.

Inductive exn : Type :=
| ZeroDivisionError
| IndexError
| ValueError.

Inductive result (A : Type) : Type :=
| Ok (a : A)
| Raise (e : exn).

Arguments Ok {A} a.
Arguments Raise {A} e.

Definition bind {A B : Type} (m : result A) (k : A -> result B) : result B :=
  match m with
  | Ok a => k a
  | Raise e => Raise e
  end.

(** [for x in xs: s = body(s, x)] with exceptions leaving the loop. *)
Fixpoint for_each {A St : Type} (body : St -> A -> result St)
         (xs : list A) (s : St) : result St :=
  match xs with
  | [] => Ok s
  | x :: xs' => bind (body s x) (for_each body xs')
  end.

(** [range(n)] for a Python integer [n]: empty when [n <= 0]. *)
Definition range (n : Z) : list Z :=
  map Z.of_nat (seq 0 (Z.to_nat n)).

(** [int(x)] on a float: truncation toward zero. *)
Definition int (x : R) : Z :=
  if Rle_dec 0 x then Zfloor x else Zceil x.

(** [i / n] on two integers: true division, an error when [n] is 0. *)
Definition truediv (i n : Z) : result R :=
  if Z.eqb n 0 then Raise ZeroDivisionError else Ok (IZR i / IZR n).

(** [x / y] on two floats: an error when [y] is 0. *)
Definition fdiv (x y : R) : result R :=
  if Req_dec_T y 0 then Raise ZeroDivisionError else Ok (x / y).

(** [math.sqrt]: a domain error below 0. *)
Definition math_sqrt (x : R) : result R :=
  if Rlt_dec x 0 then Raise ValueError else Ok (sqrt x).

(** [math.asin]: a domain error outside [[-1,1]]. *)
Definition math_asin (x : R) : result R :=
  if Rlt_dec x (-1) then Raise ValueError
  else if Rlt_dec 1 x then Raise ValueError
  else Ok (asin x).

(** [l[i]] for a non-negative index. *)
Definition index {A : Type} (l : list A) (i : nat) : result A :=
  match nth_error l i with
  | Some a => Ok a
  | None => Raise IndexError
  end.

(** [l[-1]]. *)
Definition index_last {A : Type} (l : list A) : result A :=
  match l with
  | [] => Raise IndexError
  | a :: l' => Ok (last l' a)
  end.

(** [l[:k]] for a non-negative [k]. *)
Definition slice_to {A : Type} (l : list A) (k : nat) : list A := firstn k l.

(** [l[:-1]]. *)
Definition drop_last {A : Type} (l : list A) : list A := removelast l.

(** [l[1:]]. *)
Definition slice_from1 {A : Type} (l : list A) : list A := tl l.

End Py.

Import Py.

Notation "x <- m ;; k" := (bind m (fun x => k))
  (at level 61, m at next level, right associativity).

(** ** Coordinates *)

(** A coordinate is the two-element list [[latitude, longitude]], in
    degrees. *)
Definition Coord : Type := (R * R)%type.

Definition lat (c : Coord) : R := fst c.
Definition lon (c : Coord) : R := snd c.

(** ** DistanceModel: [haversine_distance] *)

Module DistanceModel.

(** [math.radians]. *)
Definition radians (x : R) : R := x * (PI / 180).

(** Radius of the earth in meters. *)
Definition R_earth : R := 6371000.

(** The intermediate term [a] of the formula. *)
Definition haversine_a (coord1 coord2 : Coord) : R :=
  let lat1 := radians (lat coord1) in
  let lon1 := radians (lon coord1) in
  let lat2 := radians (lat coord2) in
  let lon2 := radians (lon coord2) in
  let dlat := lat2 - lat1 in
  let dlon := lon2 - lon1 in
  sin (dlat / 2) ^ 2 + cos lat1 * cos lat2 * sin (dlon / 2) ^ 2.

Definition haversine_distance (coord1 coord2 : Coord) : result R :=
  let a := haversine_a coord1 coord2 in
  root <- math_sqrt a ;;
  angle <- math_asin root ;;
  let c := 2 * angle in
  Ok (R_earth * c).

(** The value [haversine_distance] returns when it returns. *)
Definition great_circle (coord1 coord2 : Coord) : R :=
  R_earth * (2 * asin (sqrt (haversine_a coord1 coord2))).

(** The distance as the specification words it, with the term clamped to
    [[0,1]] before the square root and the arcsine; the scripts have no
    such step. *)
Definition clamp01 (x : R) : R := Rmax 0 (Rmin 1 x).

Definition distance_clamped (coord1 coord2 : Coord) : R :=
  let h := clamp01 (haversine_a coord1 coord2) in
  2 * R_earth * asin (sqrt h).

(** Coordinates inside the usual degree ranges. *)
Definition valid (c : Coord) : Prop :=
  -90 <= lat c <= 90 /\ -180 <= lon c <= 180.

End DistanceModel.

Import DistanceModel.

(** ** TrackDensifier: [interpolate_points] and [generate_route_coordinates] *)

Module TrackDensifier.

(** One iteration of the loop of [interpolate_points]. *)
Definition interpolate_step (start end_ : Coord) (num_points : Z)
           (points : list Coord) (i : Z) : result (list Coord) :=
  ratio <- truediv i num_points ;;
  let lat' := lat start + (lat end_ - lat start) * ratio in
  let lon' := lon start + (lon end_ - lon start) * ratio in
  Ok (points ++ [(lat', lon')]).

Definition interpolate_points (start end_ : Coord) (num_points : Z)
  : result (list Coord) :=
  for_each (interpolate_step start end_ num_points) (range (num_points + 1)) [].

(** The arithmetic midpoint inserted by the gap-filling pass. *)
Definition midpoint (p q : Coord) : Coord :=
  ((lat p + lat q) / 2, (lon p + lon q) / 2).

Section Densify.

(** The spacing constant of the script: 50 in the Berlin generator, 10 in
    the Wronki one. *)
Variable min_spacing : R.

(** [max(1, int(distance / min_spacing))]. *)
Definition num_intermediate (distance : R) : result Z :=
  q <- fdiv distance min_spacing ;;
  Ok (Z.max 1 (int q)).

(** Distance, step count and interpolation of one waypoint pair: the first
    half of the body of the accumulation loop. *)
Definition segment_points (start end_ : Coord) : result (list Coord) :=
  distance <- haversine_distance start end_ ;;
  num <- num_intermediate distance ;;
  interpolate_points start end_ num.

(** One iteration of [for i in range(len(waypoints) - 1)]. *)
Definition accumulate_step (waypoints : list Coord)
           (all_points : list Coord) (i : Z) : result (list Coord) :=
  start <- index waypoints (Z.to_nat i) ;;
  end_ <- index waypoints (Z.to_nat (i + 1)) ;;
  seg <- segment_points start end_ ;;
  if (i <? Z.of_nat (length waypoints) - 2)%Z
  then Ok (all_points ++ drop_last seg)
  else Ok (all_points ++ seg).

Definition all_points (waypoints : list Coord) : result (list Coord) :=
  for_each (accumulate_step waypoints)
           (range (Z.of_nat (length waypoints) - 1)) [].

(** One iteration of the spacing filter. *)
Definition filter_step (filtered_points : list Coord) (point : Coord)
  : result (list Coord) :=
  kept <- index_last filtered_points ;;
  distance <- haversine_distance kept point ;;
  if Rge_dec distance min_spacing
  then Ok (filtered_points ++ [point])
  else Ok filtered_points.

Definition spacing_filter (all : list Coord) : result (list Coord) :=
  first <- index all 0 ;;
  for_each filter_step (slice_from1 all) [first].

(** Accumulate, then filter: the whole of the Wronki
    [generate_route_coordinates] and the Berlin one up to its [while]
    loop. *)
Definition densify (waypoints : list Coord) : result (list Coord) :=
  all <- all_points waypoints ;;
  spacing_filter all.

End Densify.

Section TargetCount.

(** The constants of the Berlin script: 1000 points, 80 m gaps. *)
Variable target_count : nat.
Variable gap_threshold : R.

(** One iteration of [for i in range(len(filtered_points) - 1)] of a
    gap-filling pass. *)
Definition gap_step (filtered_points : list Coord)
           (new_points : list Coord) (i : Z) : result (list Coord) :=
  p <- index filtered_points (Z.to_nat i) ;;
  let new_points := new_points ++ [p] in
  q <- index filtered_points (Z.to_nat (i + 1)) ;;
  distance <- haversine_distance p q ;;
  if Rgt_dec distance gap_threshold
  then Ok (new_points ++ [midpoint p q])
  else Ok new_points.

(** One pass: the body of the [while] loop up to
    [filtered_points = new_points]. *)
Definition gap_fill_pass (filtered_points : list Coord)
  : result (list Coord) :=
  new_points <- for_each (gap_step filtered_points)
                  (range (Z.of_nat (length filtered_points) - 1)) [] ;;
  final <- index_last filtered_points ;;
  Ok (new_points ++ [final]).

(** The [while] loop, with a bound on the number of passes: [None] when
    the bound is used up before the loop exits. *)
Fixpoint gap_fill_loop (fuel : nat) (filtered_points : list Coord)
         {struct fuel} : option (result (list Coord)) :=
  if (length filtered_points <? target_count)%nat then
    match fuel with
    | O => None
    | S fuel' =>
        match gap_fill_pass filtered_points with
        | Raise e => Some (Raise e)
        | Ok new_points =>
            if (target_count <=? length new_points)%nat
            then Some (Ok new_points)
            else gap_fill_loop fuel' new_points
        end
    end
  else Some (Ok filtered_points).

(** The loop followed by [return filtered_points[:1000]]. *)
Definition densify_to_target_count (fuel : nat) (track : list Coord)
  : option (result (list Coord)) :=
  match gap_fill_loop fuel track with
  | Some (Ok filtered_points) => Some (Ok (slice_to filtered_points target_count))
  | Some (Raise e) => Some (Raise e)
  | None => None
  end.

End TargetCount.

(** The Berlin [generate_route_coordinates] with its constants as
    parameters. *)
Definition generate_route_coordinates (min_spacing : R) (target_count : nat)
           (gap_threshold : R) (fuel : nat) (waypoints : list Coord)
  : option (result (list Coord)) :=
  match densify min_spacing waypoints with
  | Raise e => Some (Raise e)
  | Ok filtered_points =>
      densify_to_target_count target_count gap_threshold fuel filtered_points
  end.

(** *** Closed forms of the loops, used to reason about them *)

(** The point appended at iteration [i] of [interpolate_points]. *)
Definition point_at (start end_ : Coord) (num_points i : Z) : Coord :=
  (lat start + (lat end_ - lat start) * (IZR i / IZR num_points),
   lon start + (lon end_ - lon start) * (IZR i / IZR num_points)).

(** The step count of a segment. *)
Definition step_count (min_spacing : R) (start end_ : Coord) : Z :=
  Z.max 1 (int (great_circle start end_ / min_spacing)).

(** The points of one segment. *)
Definition segment (min_spacing : R) (start end_ : Coord) : list Coord :=
  let n := step_count min_spacing start end_ in
  map (point_at start end_ n) (range (n + 1)).

(** The accumulator after the last waypoint pair: every segment without
    its last point, except the final one. *)
Fixpoint route (min_spacing : R) (waypoints : list Coord) : list Coord :=
  match waypoints with
  | start :: ((end_ :: rest) as tail) =>
      match rest with
      | [] => segment min_spacing start end_
      | _ :: _ => drop_last (segment min_spacing start end_) ++ route min_spacing tail
      end
  | _ => []
  end.

(** The spacing filter as a left fold over the candidates. *)
Definition keep_step (min_spacing : R) (first : Coord)
           (kept : list Coord) (point : Coord) : list Coord :=
  if Rge_dec (great_circle (last kept first) point) min_spacing
  then kept ++ [point] else kept.

Definition keep_spaced (min_spacing : R) (first : Coord) (rest : list Coord)
  : list Coord :=
  fold_left (keep_step min_spacing first) rest [first].

(** [new_points] of a gap-filling pass before the final append. *)
Fixpoint with_midpoints (gap_threshold : R) (points : list Coord) : list Coord :=
  match points with
  | p :: ((q :: _) as rest) =>
      (if Rgt_dec (great_circle p q) gap_threshold
       then [p; midpoint p q] else [p])
        ++ with_midpoints gap_threshold rest
  | _ => []
  end.

(** No adjacent pair of the track is more than [gap_threshold] apart. *)
Fixpoint no_wide_gap (gap_threshold : R) (track : list Coord) : Prop :=
  match track with
  | p :: ((q :: _) as rest) =>
      ~ great_circle p q > gap_threshold /\ no_wide_gap gap_threshold rest
  | _ => True
  end.

(** Every adjacent pair of the track is at least [s] apart. *)
Fixpoint spaced (s : R) (track : list Coord) : Prop :=
  match track with
  | p :: ((q :: _) as rest) => s <= great_circle p q /\ spaced s rest
  | _ => True
  end.

End TrackDensifier.

Import TrackDensifier.

(** ** The two scripts *)

Module Berlin.

Definition waypoints : list Coord :=
  [ (52.5200, 13.4050); (52.4500, 13.3500); (52.3000, 13.1000);
    (52.1000, 12.8000); (51.8397, 12.2431); (51.4800, 11.9700);
    (51.2000, 11.6000); (50.9849, 11.3239); (50.7000, 11.0000);
    (50.4000, 10.7000); (49.9000, 10.5000); (49.9479, 11.5683);
    (49.7000, 11.4000); (49.4500, 11.0780); (49.4521, 11.0767);
    (49.2000, 10.9000); (48.8000, 10.8000); (48.7665, 11.4257);
    (48.5000, 11.5000); (48.3000, 11.6000); (48.1351, 11.5820) ].

Definition generate_route_coordinates (fuel : nat)
  : option (result (list Coord)) :=
  TrackDensifier.generate_route_coordinates 50 1000 80 fuel waypoints.

End Berlin.

Module Wronki.

Definition waypoints : list Coord :=
  [ (52.7065, 16.3894); (52.7089, 16.4156); (52.7124, 16.4523);
    (52.7156, 16.4891); (52.7189, 16.5267); (52.7223, 16.5634);
    (52.7145, 16.6123); (52.7089, 16.6587); (52.7034, 16.7045);
    (52.6978, 16.7489); (52.6923, 16.7923); (52.6867, 16.8345);
    (52.6812, 16.8756); (52.6756, 16.9156); (52.6701, 16.9545);
    (52.6645, 16.9923); (52.6589, 17.0289); (52.6534, 17.0644);
    (52.6478, 17.0987); (52.6423, 17.1319); (52.6367, 17.1640);
    (52.6312, 17.1950); (52.6256, 17.2248); (52.6201, 17.2535);
    (52.6145, 17.2811); (52.6089, 17.3076); (52.6034, 17.3330);
    (52.5978, 17.3572); (52.5923, 17.3803); (52.5345, 17.5928) ].

Definition generate_route_coordinates : result (list Coord) :=
  densify 10 waypoints.

End Wronki.

(** ** [main]: formatting and the spacing report *)

Module Report.

(** A float that may be [float('inf')]. *)
Inductive float_inf : Type :=
| Finite (x : R)
| Infinity.

(** [min(min_distance, dist)]: the second argument when it is smaller. *)
Definition py_min (a : float_inf) (b : R) : float_inf :=
  match a with
  | Infinity => Finite b
  | Finite x => if Rlt_dec b x then Finite b else Finite x
  end.

(** [max(max_distance, dist)]: the second argument when it is larger. *)
Definition py_max (a b : R) : R :=
  if Rgt_dec b a then b else a.

(** [range(lo, hi)]. *)
Definition range_from (lo hi : Z) : list Z :=
  map (fun k => (lo + k)%Z) (range (hi - lo)).

(** The three accumulators of the verification loop of the Wronki [main]. *)
Record stats : Type := mkStats {
  total_distance : R;
  min_distance : float_inf;
  max_distance : R
}.

(** One iteration of [for i in range(1, len(coordinates))]. *)
Definition stats_step (coordinates : list Coord) (s : stats) (i : Z)
  : result stats :=
  previous <- index coordinates (Z.to_nat (i - 1)) ;;
  current <- index coordinates (Z.to_nat i) ;;
  dist <- haversine_distance previous current ;;
  Ok (mkStats (total_distance s + dist)
              (py_min (min_distance s) dist)
              (py_max (max_distance s) dist)).

Definition verify_spacing (coordinates : list Coord) : result stats :=
  for_each (stats_step coordinates)
           (range_from 1 (Z.of_nat (length coordinates)))
           (mkStats 0 Infinity 0).



(** The numbers [main] prints after the loop: kilometres, minimum,
    maximum, and [total_distance / len(coordinates)]. *)
Record report : Type := mkReport {
  total_km : R;
  minimum : float_inf;
  maximum : R;
  average : R
}.

Definition spacing_report (coordinates : list Coord) : result report :=
  s <- verify_spacing coordinates ;;
  avg <- fdiv (total_distance s) (IZR (Z.of_nat (length coordinates))) ;;
  Ok (mkReport (total_distance s / 1000) (min_distance s) (max_distance s) avg).

(** [round(x)] to the nearest integer, ties to the even one. *)
Definition round_half_even (y : R) : Z :=
  let f := Zfloor y in
  let r := y - IZR f in
  if Rlt_dec r (1 / 2) then f
  else if Rlt_dec (1 / 2) r then (f + 1)%Z
  else if Z.even f then f else (f + 1)%Z.

(** [round(x, 6)]. *)
Definition round6 (x : R) : R :=
  IZR (round_half_even (x * 1000000)) / 1000000.




End Report.

Import Report.

(** ** Vocabulary of the further properties *)

(** [l1] is [l2] with some elements left out, the order kept. *)
Inductive subseq {A : Type} : list A -> list A -> Prop :=
| subseq_nil : subseq [] []
| subseq_skip (x : A) (l1 l2 : list A) : subseq l1 l2 -> subseq l1 (x :: l2)
| subseq_keep (x : A) (l1 l2 : list A) : subseq l1 l2 -> subseq (x :: l1) (x :: l2).



(** The number of adjacent pairs more than [gap_threshold] apart. *)
Fixpoint wide_gaps (gap_threshold : R) (track : list Coord) : nat :=
  match track with
  | p :: ((q :: _) as rest) =>
      ((if Rgt_dec (great_circle p q) gap_threshold then 1 else 0)
       + wide_gaps gap_threshold rest)%nat
  | _ => 0%nat
  end.

(** The distances of the adjacent pairs, in order. *)
Fixpoint gaps (track : list Coord) : list R :=
  match track with
  | p :: ((q :: _) as rest) => great_circle p q :: gaps rest
  | _ => []
  end.

(** The accumulators of the verification loop after one more distance. *)
Definition add_gap (s : stats) (dist : R) : stats :=
  mkStats (total_distance s + dist)
          (py_min (min_distance s) dist)
          (py_max (max_distance s) dist).



(** * Properties *)

(** ** The Python prelude *)

Section PreludeFacts.

Context {A St : Type}.

Lemma for_each_app (body : St -> A -> result St) (xs ys : list A) (s : St) :
  for_each body (xs ++ ys) s = bind (for_each body xs s) (for_each body ys).
Proof.
  revert s; induction xs as [|x xs IH]; intros s; simpl; [reflexivity|].
  destruct (body s x) as [s'|e]; simpl; [apply IH | reflexivity].
Qed.

Lemma for_each_snoc (body : St -> A -> result St) (xs : list A) (x : A) (s : St) :
  for_each body (xs ++ [x]) s = bind (for_each body xs s) (fun s' => body s' x).
Proof.
  rewrite for_each_app. destruct (for_each body xs s) as [s'|e]; simpl; [|reflexivity].
  destruct (body s' x); reflexivity.
Qed.

End PreludeFacts.

Lemma range_nonpos (n : Z) : (n <= 0)%Z -> range n = [].
Proof.
  intros H. unfold range. replace (Z.to_nat n) with O by lia. reflexivity.
Qed.

Lemma range_succ (n : Z) : (0 <= n)%Z -> range (n + 1) = range n ++ [n].
Proof.
  intros H. unfold range.
  replace (Z.to_nat (n + 1)) with (S (Z.to_nat n)) by lia.
  rewrite seq_S, map_app. simpl. rewrite Z2Nat.id by exact H. reflexivity.
Qed.

Lemma range_length (n : Z) : length (range n) = Z.to_nat n.
Proof. unfold range. rewrite length_map, length_seq. reflexivity. Qed.


(** [int] agrees with the floor on non-negative floats, and the step
    count [max(1, int(x))] is [max(1, floor(x))] on every float. *)
Lemma int_nonneg (x : R) : 0 <= x -> int x = Zfloor x.
Proof. intros H. unfold int. destruct (Rle_dec 0 x); [reflexivity | contradiction]. Qed.

Lemma max1_int_floor (x : R) : Z.max 1 (int x) = Z.max 1 (Zfloor x).
Proof.
  unfold int. destruct (Rle_dec 0 x) as [H|H]; [reflexivity|].
  assert (Hx : x < 0) by lra.
  assert (Hc : (Zceil x <= 0)%Z).
  { pose proof (Zceil_bound x) as [Hb _].
    apply Z.lt_succ_r. apply lt_IZR. rewrite succ_IZR. lra. }
  assert (Hf : (Zfloor x <= 0)%Z).
  { pose proof (Zfloor_bound x) as [Hb _]. apply le_IZR. lra. }
  lia.
Qed.

(** ** DistanceModel *)

Section DistanceFacts.

Lemma radians_0 : radians 0 = 0.
Proof. unfold radians. lra. Qed.

Lemma sin_half_sq (x : R) : sin (x / 2) ^ 2 = (1 - cos x) / 2.
Proof.
  replace x with (2 * (x / 2)) at 2 by lra.
  rewrite cos_2a_sin. lra.
Qed.

(** Without any clamp, the term under the square root lies in [[0,1]]:
    in exact arithmetic [math.sqrt] and [math.asin] stay inside their
    domains. *)
Lemma haversine_a_range (coord1 coord2 : Coord) :
  0 <= haversine_a coord1 coord2 <= 1.
Proof.
  unfold haversine_a; cbv zeta.
  set (u := radians (lat coord1)). set (v := radians (lat coord2)).
  set (w := (radians (lon coord2) - radians (lon coord1)) / 2).
  rewrite sin_half_sq.
  pose proof (COS_bound (v - u)) as [Hm1 Hm2].
  pose proof (COS_bound (v + u)) as [Hp1 Hp2].
  rewrite cos_minus in Hm1, Hm2. rewrite cos_plus in Hp1, Hp2.
  rewrite cos_minus.
  pose proof (SIN_bound w) as [Hs1 Hs2].
  set (s := sin w ^ 2).
  assert (Hs : 0 <= s <= 1) by (unfold s; nra).
  set (P := cos v * cos u) in *. set (Q := sin v * sin u) in *.
  replace (cos u * cos v) with P by (unfold P; ring).
  destruct Hs as [Hs0 Hs1'].
  assert (H1 : 0 <= (1 - (P + Q)) * (1 - s)) by (apply Rmult_le_pos; lra).
  assert (H2 : 0 <= (1 + (P - Q)) * s) by (apply Rmult_le_pos; lra).
  assert (H3 : 0 <= (1 + (P + Q)) * (1 - s)) by (apply Rmult_le_pos; lra).
  assert (H4 : 0 <= (1 - (P - Q)) * s) by (apply Rmult_le_pos; lra).
  split; lra.
Qed.

Lemma asin_nonneg (y : R) : 0 <= y <= 1 -> 0 <= asin y.
Proof.
  intros [H0 H1].
  destruct (Rle_lt_dec 0 (asin y)) as [H|H]; [exact H|].
  pose proof (asin_bound y) as [Hb _].
  pose proof PI_RGT_0.
  assert (Hs : sin (asin y) < 0) by (apply sin_lt_0_var; lra).
  rewrite sin_asin in Hs by lra. lra.
Qed.

Lemma sqrt_a_range (coord1 coord2 : Coord) :
  0 <= sqrt (haversine_a coord1 coord2) <= 1.
Proof.
  pose proof (haversine_a_range coord1 coord2) as [H0 H1].
  split; [apply sqrt_pos|].
  rewrite <- sqrt_1. apply sqrt_le_1; lra.
Qed.

(** [haversine_distance] raises no domain error: it returns
    [great_circle]. *)
Lemma haversine_distance_ok (coord1 coord2 : Coord) :
  haversine_distance coord1 coord2 = Ok (great_circle coord1 coord2).
Proof.
  unfold haversine_distance, great_circle; cbv zeta.
  pose proof (haversine_a_range coord1 coord2) as [Ha0 Ha1].
  pose proof (sqrt_a_range coord1 coord2) as [Hs0 Hs1].
  unfold math_sqrt.
  destruct (Rlt_dec (haversine_a coord1 coord2) 0) as [H|_]; [lra|].
  cbn [bind]. unfold math_asin.
  destruct (Rlt_dec (sqrt (haversine_a coord1 coord2)) (-1)) as [H|_]; [lra|].
  destruct (Rlt_dec 1 (sqrt (haversine_a coord1 coord2))) as [H|_]; [lra|].
  reflexivity.
Qed.

Lemma haversine_distance_inv (coord1 coord2 : Coord) (distance : R) :
  haversine_distance coord1 coord2 = Ok distance <->
  distance = great_circle coord1 coord2.
Proof.
  rewrite haversine_distance_ok. split.
  - intros H. injection H as <-. reflexivity.
  - intros ->. reflexivity.
Qed.

Lemma great_circle_nonneg (coord1 coord2 : Coord) :
  0 <= great_circle coord1 coord2.
Proof.
  unfold great_circle, R_earth; cbv zeta.
  pose proof (asin_nonneg _ (sqrt_a_range coord1 coord2)). lra.
Qed.


(** In exact arithmetic the clamp of the specification is the identity,
    and the clamped distance is the distance of the scripts. *)
Lemma clamp01_haversine_a (coord1 coord2 : Coord) :
  clamp01 (haversine_a coord1 coord2) = haversine_a coord1 coord2.
Proof.
  pose proof (haversine_a_range coord1 coord2) as [H0 H1].
  unfold clamp01. rewrite Rmin_right by exact H1. apply Rmax_right. exact H0.
Qed.

Lemma distance_clamped_eq (coord1 coord2 : Coord) :
  distance_clamped coord1 coord2 = great_circle coord1 coord2.
Proof.
  unfold distance_clamped, great_circle; cbv zeta.
  rewrite clamp01_haversine_a. ring.
Qed.

Lemma haversine_a_sym (coord1 coord2 : Coord) :
  haversine_a coord1 coord2 = haversine_a coord2 coord1.
Proof.
  unfold haversine_a; cbv zeta.
  rewrite !sin_half_sq.
  replace (radians (lat coord1) - radians (lat coord2))
    with (- (radians (lat coord2) - radians (lat coord1))) by ring.
  replace (radians (lon coord1) - radians (lon coord2))
    with (- (radians (lon coord2) - radians (lon coord1))) by ring.
  rewrite !cos_neg. ring.
Qed.

Lemma great_circle_sym (coord1 coord2 : Coord) :
  great_circle coord1 coord2 = great_circle coord2 coord1.
Proof. unfold great_circle. rewrite haversine_a_sym. reflexivity. Qed.

Lemma great_circle_zero_iff_a (coord1 coord2 : Coord) :
  great_circle coord1 coord2 = 0 <-> haversine_a coord1 coord2 = 0.
Proof.
  unfold great_circle, R_earth; cbv zeta. split.
  - intros H.
    assert (Ha : asin (sqrt (haversine_a coord1 coord2)) = 0) by lra.
    pose proof (sqrt_a_range coord1 coord2) as Hr.
    assert (Hs : sqrt (haversine_a coord1 coord2) = 0).
    { rewrite <- (sin_asin (sqrt (haversine_a coord1 coord2))) by lra.
      rewrite Ha. apply sin_0. }
    apply sqrt_eq_0; [apply haversine_a_range | exact Hs].
  - intros ->. rewrite sqrt_0, asin_0. lra.
Qed.

Lemma great_circle_refl (c : Coord) : great_circle c c = 0.
Proof.
  apply great_circle_zero_iff_a. unfold haversine_a; cbv zeta.
  replace ((radians (lat c) - radians (lat c)) / 2) with 0 by lra.
  replace ((radians (lon c) - radians (lon c)) / 2) with 0 by lra.
  rewrite sin_0. ring.
Qed.

(** Two points of the equator at most half a turn apart: the distance is
    the arc length. *)
Lemma great_circle_equator (x y : R) :
  0 <= y - x <= 180 ->
  great_circle (0, x) (0, y) = R_earth * radians (y - x).
Proof.
  intros Hxy. unfold great_circle, haversine_a; cbv zeta.
  unfold lat, lon; simpl fst; simpl snd.
  rewrite radians_0.
  replace ((0 - 0) / 2) with 0 by lra.
  rewrite sin_0, cos_0.
  set (w := (radians y - radians x) / 2).
  replace (0 ^ 2 + 1 * 1 * sin w ^ 2) with (sin w ^ 2) by ring.
  pose proof PI_RGT_0 as Hpi.
  assert (Ew : w = (y - x) * (PI / 360)) by (unfold w, radians; field).
  assert (Hw : 0 <= w <= PI / 2) by (rewrite Ew; nra).
  assert (Hsw : 0 <= sin w) by (apply sin_ge_0; lra).
  rewrite sqrt_pow2 by exact Hsw.
  rewrite asin_sin by lra.
  rewrite Ew. unfold radians. field.
Qed.

End DistanceFacts.

Section DistanceZero.

Lemma sin_zero_inside (x : R) : - PI < x < PI -> sin x = 0 -> x = 0.
Proof.
  intros [Hl Hr] Hs.
  destruct (Rtotal_order x 0) as [Hneg | [H0 | Hpos]]; [|exact H0|].
  - pose proof (sin_lt_0_var x Hl Hneg). lra.
  - pose proof (sin_gt_0 x Hpos Hr). lra.
Qed.

Lemma sin_zero_closed (x : R) :
  - PI <= x <= PI -> sin x = 0 -> x = - PI \/ x = 0 \/ x = PI.
Proof.
  intros [Hl Hr] Hs.
  destruct (Req_dec x (- PI)) as [E1|N1]; [left; exact E1|].
  destruct (Req_dec x PI) as [E2|N2]; [right; right; exact E2|].
  right; left. apply sin_zero_inside; [lra | exact Hs].
Qed.

Lemma cos_zero_closed (x : R) :
  - (PI / 2) <= x <= PI / 2 -> cos x = 0 -> x = - (PI / 2) \/ x = PI / 2.
Proof.
  intros [Hl Hr] Hc.
  destruct (Req_dec x (- (PI / 2))) as [E1|N1]; [left; exact E1|].
  destruct (Req_dec x (PI / 2)) as [E2|N2]; [right; exact E2|].
  assert (H : 0 < cos x) by (apply cos_gt_0; lra). lra.
Qed.

Lemma radians_inj (x y : R) : radians x = radians y -> x = y.
Proof.
  unfold radians. intros H. pose proof PI_RGT_0.
  apply (Rmult_eq_reg_r (PI / 180)); [exact H | lra].
Qed.

Lemma radians_lat_range (c : Coord) :
  valid c -> - (PI / 2) <= radians (lat c) <= PI / 2.
Proof.
  intros [[H1 H2] _]. unfold radians. pose proof PI_RGT_0. nra.
Qed.

Lemma radians_lon_range (c : Coord) :
  valid c -> - PI <= radians (lon c) <= PI.
Proof.
  intros [_ [H1 H2]]. unfold radians. pose proof PI_RGT_0. nra.
Qed.

(** When two valid coordinates are at distance 0: they lie on one parallel
    and either on one meridian, or at a pole, or on the two names of the
    antimeridian. *)
Lemma great_circle_zero_valid (a b : Coord) :
  valid a -> valid b ->
  (great_circle a b = 0 <->
   lat a = lat b /\
   (lon a = lon b \/ lat a = 90 \/ lat a = -90 \/
    lon a - lon b = 360 \/ lon b - lon a = 360)).
Proof.
  intros Va Vb. rewrite great_circle_zero_iff_a.
  pose proof (radians_lat_range a Va) as Hu.
  pose proof (radians_lat_range b Vb) as Hv.
  pose proof (radians_lon_range a Va) as Hp.
  pose proof (radians_lon_range b Vb) as Hq.
  pose proof PI_RGT_0 as Hpi.
  unfold haversine_a; cbv zeta.
  set (u := radians (lat a)) in *. set (v := radians (lat b)) in *.
  set (p := radians (lon a)) in *. set (q := radians (lon b)) in *.
  assert (Hcu : 0 <= cos u) by (apply cos_ge_0; lra).
  assert (Hcv : 0 <= cos v) by (apply cos_ge_0; lra).
  split.
  - intros H.
    assert (Hsq1 : 0 <= sin ((v - u) / 2) ^ 2) by apply pow2_ge_0.
    assert (Hsq2 : 0 <= sin ((q - p) / 2) ^ 2) by apply pow2_ge_0.
    assert (Hprod : 0 <= cos u * cos v * sin ((q - p) / 2) ^ 2).
    { apply Rmult_le_pos; [apply Rmult_le_pos|]; assumption. }
    assert (E1 : sin ((v - u) / 2) ^ 2 = 0) by lra.
    assert (E2 : cos u * cos v * sin ((q - p) / 2) ^ 2 = 0) by lra.
    assert (Euv : u = v).
    { assert (S0 : sin ((v - u) / 2) = 0).
      { destruct (Req_dec (sin ((v - u) / 2)) 0) as [E|N]; [exact E|].
        exfalso. apply (pow_nonzero _ 2) in N. contradiction. }
      apply sin_zero_inside in S0; lra. }
    split; [apply radians_inj; exact Euv|].
    rewrite <- Euv in E2.
    apply Rmult_integral in E2. destruct E2 as [E2|E2].
    + assert (Cu : cos u = 0).
      { apply Rmult_integral in E2. destruct E2; assumption. }
      apply cos_zero_closed in Cu; [|lra].
      right. unfold u, radians in Cu.
      destruct Cu as [Cu|Cu]; [right; left | left]; nra.
    + assert (S0 : sin ((q - p) / 2) = 0).
      { destruct (Req_dec (sin ((q - p) / 2)) 0) as [E|N]; [exact E|].
        exfalso. apply (pow_nonzero _ 2) in N. contradiction. }
      apply sin_zero_closed in S0; [|lra].
      unfold p, q, radians in S0.
      destruct S0 as [S0 | [S0 | S0]].
      * right; right; right; left. nra.
      * left. nra.
      * right; right; right; right. nra.
  - intros [Elat Hcase].
    assert (Euv : v = u) by (unfold u, v; rewrite Elat; reflexivity).
    rewrite Euv. replace ((u - u) / 2) with 0 by lra. rewrite sin_0.
    destruct Hcase as [E | [E | [E | [E | E]]]].
    + assert (Epq : q = p) by (unfold p, q; rewrite E; reflexivity).
      rewrite Epq. replace ((p - p) / 2) with 0 by lra. rewrite sin_0. ring.
    + assert (Eu : u = PI / 2) by (unfold u, radians; rewrite E; field).
      rewrite Eu, cos_PI2. ring.
    + assert (Eu : u = - (PI / 2)) by (unfold u, radians; rewrite E; field).
      rewrite Eu, cos_neg, cos_PI2. ring.
    + assert (Ew : (q - p) / 2 = - PI).
      { unfold p, q, radians.
        replace (lon a) with (lon b + 360) by lra. field. }
      rewrite Ew, sin_neg, sin_PI. ring.
    + assert (Ew : (q - p) / 2 = PI).
      { unfold p, q, radians.
        replace (lon b) with (lon a + 360) by lra. field. }
      rewrite Ew, sin_PI. ring.
Qed.

End DistanceZero.

(** ** [interpolate_points] *)

Section InterpolateFacts.

Variables start end_ : Coord.

Lemma interpolate_loop (num_points : Z) (xs : list Z) (points : list Coord) :
  num_points <> 0%Z ->
  for_each (interpolate_step start end_ num_points) xs points
  = Ok (points ++ map (point_at start end_ num_points) xs).
Proof.
  intros Hn. revert points.
  induction xs as [|i xs IH]; intros points; simpl.
  - rewrite app_nil_r. reflexivity.
  - unfold interpolate_step at 1, truediv.
    destruct (Z.eqb_spec num_points 0) as [E|_]; [contradiction|].
    simpl. rewrite IH, <- app_assoc. reflexivity.
Qed.

Lemma interpolate_points_ok (num_points : Z) :
  num_points <> 0%Z ->
  interpolate_points start end_ num_points
  = Ok (map (point_at start end_ num_points) (range (num_points + 1))).
Proof.
  intros Hn. unfold interpolate_points. rewrite interpolate_loop by exact Hn.
  reflexivity.
Qed.


Lemma interpolate_points_negative (num_points : Z) :
  (num_points < 0)%Z -> interpolate_points start end_ num_points = Ok [].
Proof.
  intros H. unfold interpolate_points. rewrite range_nonpos by lia. reflexivity.
Qed.

Lemma point_at_first (n : Z) : point_at start end_ n 0 = start.
Proof.
  unfold point_at, lat, lon. destruct start as [a b]; simpl.
  f_equal; unfold Rdiv; ring.
Qed.

Lemma point_at_last (n : Z) : n <> 0%Z -> point_at start end_ n n = end_.
Proof.
  intros Hn. unfold point_at, lat, lon.
  destruct start as [a b], end_ as [c d]; simpl.
  assert (IZR n <> 0) by (apply not_0_IZR; exact Hn).
  f_equal; field; assumption.
Qed.

End InterpolateFacts.

Lemma range_head (n : Z) :
  (1 <= n)%Z -> exists rest, range n = 0%Z :: rest.
Proof.
  intros H. unfold range.
  destruct (Z.to_nat n) as [|k] eqn:E; [lia|].
  simpl. eexists; reflexivity.
Qed.

(** ** One segment *)

Section SegmentFacts.

Variable min_spacing : R.
Hypothesis spacing_nonzero : min_spacing <> 0.

Lemma step_count_pos (start end_ : Coord) :
  (1 <= step_count min_spacing start end_)%Z.
Proof. unfold step_count. lia. Qed.

Lemma num_intermediate_ok (distance : R) :
  num_intermediate min_spacing distance
  = Ok (Z.max 1 (int (distance / min_spacing))).
Proof.
  unfold num_intermediate, fdiv.
  destruct (Req_dec_T min_spacing 0) as [E|_]; [contradiction|]. reflexivity.
Qed.

Lemma segment_points_ok (start end_ : Coord) :
  segment_points min_spacing start end_ = Ok (segment min_spacing start end_).
Proof.
  unfold segment_points. rewrite haversine_distance_ok. cbn [bind].
  rewrite num_intermediate_ok. cbn [bind].
  fold (step_count min_spacing start end_).
  pose proof (step_count_pos start end_).
  rewrite interpolate_points_ok by lia. reflexivity.
Qed.


(** A segment starts at [start], ends at [end_], and has at least these
    two points. *)
Lemma segment_shape (start end_ : Coord) :
  exists mid, segment min_spacing start end_ = start :: mid ++ [end_].
Proof.
  unfold segment; cbv zeta.
  pose proof (step_count_pos start end_) as Hn.
  set (n := step_count min_spacing start end_) in *.
  rewrite range_succ by lia.
  destruct (range_head n Hn) as (rest & E). rewrite E.
  rewrite map_app. simpl.
  rewrite point_at_first, point_at_last by lia.
  eexists; reflexivity.
Qed.

End SegmentFacts.

Lemma last_nonempty_indep {A : Type} (l : list A) (d d' : A) :
  l <> [] -> last l d = last l d'.
Proof.
  induction l as [|x l IH]; intros H; [contradiction|].
  destruct l as [|y l]; [reflexivity|].
  change (last (y :: l) d = last (y :: l) d'). apply IH. discriminate.
Qed.

(** ** The accumulation loop *)

Section AccumulateFacts.

Variable min_spacing : R.
Hypothesis spacing_nonzero : min_spacing <> 0.

Lemma index_app_here {A : Type} (pre suf : list A) (x : A) :
  index (pre ++ x :: suf) (length pre) = Ok x.
Proof.
  unfold index. rewrite nth_error_app2 by lia.
  rewrite Nat.sub_diag. reflexivity.
Qed.

Lemma index_app_next {A : Type} (pre suf : list A) (x y : A) :
  index (pre ++ x :: y :: suf) (length pre + 1) = Ok y.
Proof.
  unfold index. rewrite nth_error_app2 by lia.
  replace (length pre + 1 - length pre)%nat with 1%nat by lia. reflexivity.
Qed.

(** The iterations from index [length pre] on append the route of the
    remaining waypoints. *)
Lemma accumulate_loop (suf pre acc : list Coord) :
  for_each (accumulate_step min_spacing (pre ++ suf))
           (map Z.of_nat (seq (length pre) (length suf - 1))) acc
  = Ok (acc ++ route min_spacing suf).
Proof.
  revert pre acc.
  induction suf as [|s suf IH]; intros pre acc.
  - simpl. rewrite app_nil_r. reflexivity.
  - destruct suf as [|e rest].
    + simpl. rewrite app_nil_r. reflexivity.
    + replace (length (s :: e :: rest) - 1)%nat with (S (length rest)) by (simpl; lia).
      cbn [seq map for_each].
      unfold accumulate_step at 1.
      rewrite Nat2Z.id.
      replace (Z.to_nat (Z.of_nat (length pre) + 1)) with (length pre + 1)%nat by lia.
      rewrite index_app_here, index_app_next. cbn [bind].
      rewrite (segment_points_ok min_spacing spacing_nonzero). cbn [bind].
      specialize (IH (pre ++ [s])).
      rewrite <- app_assoc in IH. cbn [app] in IH.
      rewrite length_app in IH. cbn [length] in IH.
      replace (length pre + 1)%nat with (S (length pre)) in IH by lia.
      replace (S (length rest) - 1)%nat with (length rest) in IH by lia.
      rewrite length_app. cbn [length].
      destruct rest as [|r rest'];
        match goal with
        | |- context [(?a <? ?b)%Z] => destruct (Z.ltb_spec a b) as [H|H]
        end; cbn [length] in H; try lia.
      * reflexivity.
      * cbn [bind]. rewrite IH.
        cbn [route]. rewrite <- app_assoc. reflexivity.
Qed.

Lemma all_points_route (waypoints : list Coord) :
  all_points min_spacing waypoints = Ok (route min_spacing waypoints).
Proof.
  unfold all_points, range.
  replace (Z.to_nat (Z.of_nat (length waypoints) - 1))
    with (length waypoints - 1)%nat by lia.
  exact (accumulate_loop waypoints [] []).
Qed.

Lemma drop_last_segment (start end_ : Coord) :
  exists mid, drop_last (segment min_spacing start end_) = start :: mid.
Proof.
  destruct (segment_shape min_spacing start end_) as (mid & E).
  exists mid. rewrite E. unfold drop_last.
  change (start :: mid ++ [end_]) with ((start :: mid) ++ [end_]).
  apply removelast_last.
Qed.

Lemma route_step (w0 w1 w2 : Coord) (rest : list Coord) :
  route min_spacing (w0 :: w1 :: w2 :: rest)
  = drop_last (segment min_spacing w0 w1) ++ route min_spacing (w1 :: w2 :: rest).
Proof. reflexivity. Qed.

(** With two waypoints or more, the accumulator starts at the first
    waypoint and ends at the last one. *)
Lemma route_shape (w0 w1 : Coord) (rest : list Coord) :
  exists mid,
    route min_spacing (w0 :: w1 :: rest) = (w0 :: mid) ++ [last rest w1].
Proof.
  revert w0 w1. induction rest as [|w2 rest IH]; intros w0 w1.
  - cbn [route last].
    destruct (segment_shape min_spacing w0 w1) as (mid & E).
    exists mid. exact E.
  - rewrite route_step.
    destruct (drop_last_segment w0 w1) as (mid0 & E0).
    destruct (IH w1 w2) as (mid1 & E1).
    rewrite E0, E1.
    exists (mid0 ++ w1 :: mid1).
    assert (El : last (w2 :: rest) w1 = last rest w2).
    { destruct rest as [|r rest']; [reflexivity|].
      change (last (w2 :: r :: rest') w1) with (last (r :: rest') w1).
      apply last_nonempty_indep. discriminate. }
    rewrite El. cbn [app]. rewrite <- !app_assoc. reflexivity.
Qed.

End AccumulateFacts.

(** ** The spacing filter *)

Section FilterFacts.

Variable min_spacing : R.

Lemma last_cons_default {A : Type} (a d : A) (l : list A) :
  last (a :: l) d = last l a.
Proof.
  destruct l as [|b l]; [reflexivity|].
  change (last (b :: l) d = last (b :: l) a).
  apply last_nonempty_indep. discriminate.
Qed.

Lemma index_last_ok {A : Type} (l : list A) (d : A) :
  l <> [] -> index_last l = Ok (last l d).
Proof.
  destruct l as [|a l]; intros H; [contradiction|].
  unfold index_last. rewrite last_cons_default. reflexivity.
Qed.

Lemma keep_step_nonempty (first : Coord) (kept : list Coord) (point : Coord) :
  kept <> [] -> keep_step min_spacing first kept point <> [].
Proof.
  intros H. unfold keep_step.
  destruct (Rge_dec _ _); [|exact H].
  destruct kept; [contradiction | discriminate].
Qed.

Lemma filter_loop_fold (first : Coord) (rest kept : list Coord) :
  kept <> [] ->
  for_each (filter_step min_spacing) rest kept
  = Ok (fold_left (keep_step min_spacing first) rest kept).
Proof.
  revert kept. induction rest as [|p rest IH]; intros kept H; [reflexivity|].
  cbn [for_each fold_left].
  unfold filter_step at 1. rewrite (index_last_ok kept first H). cbn [bind].
  rewrite haversine_distance_ok. cbn [bind].
  fold (keep_step min_spacing first kept p).
  assert (E : (if Rge_dec (great_circle (last kept first) p) min_spacing
               then Ok (kept ++ [p]) else Ok kept)
              = Ok (keep_step min_spacing first kept p)).
  { unfold keep_step. destruct (Rge_dec _ _); reflexivity. }
  rewrite E. cbn [bind]. apply IH. apply keep_step_nonempty. exact H.
Qed.

Lemma spacing_filter_cons (first : Coord) (rest : list Coord) :
  spacing_filter min_spacing (first :: rest)
  = Ok (keep_spaced min_spacing first rest).
Proof.
  unfold spacing_filter, index, slice_from1, keep_spaced. cbn [nth_error bind tl].
  apply filter_loop_fold. discriminate.
Qed.

Lemma spacing_filter_nil : spacing_filter min_spacing [] = Raise IndexError.
Proof. reflexivity. Qed.


Lemma fold_keep_head (first : Coord) (rest kept : list Coord) (k0 : Coord) :
  hd_error kept = Some k0 ->
  hd_error (fold_left (keep_step min_spacing first) rest kept) = Some k0.
Proof.
  revert kept. induction rest as [|p rest IH]; intros kept H; [exact H|].
  cbn [fold_left]. apply IH. unfold keep_step.
  destruct (Rge_dec _ _); [|exact H].
  destruct kept; [discriminate | exact H].
Qed.

Lemma keep_spaced_head (first : Coord) (rest : list Coord) :
  hd_error (keep_spaced min_spacing first rest) = Some first.
Proof. apply fold_keep_head. reflexivity. Qed.


Lemma spaced_snoc (track : list Coord) (d p : Coord) :
  spaced min_spacing track ->
  min_spacing <= great_circle (last track d) p ->
  track <> [] ->
  spaced min_spacing (track ++ [p]).
Proof.
  induction track as [|a track IH]; intros Hs Hd Hne; [contradiction|].
  destruct track as [|b track].
  - cbn in *. auto.
  - change (spaced min_spacing (a :: b :: (track ++ [p]))).
    cbn [spaced] in Hs |- *. destruct Hs as [Hab Hs].
    split; [exact Hab|].
    apply IH; [exact Hs | exact Hd | discriminate].
Qed.

Lemma fold_keep_spaced (first : Coord) (rest kept : list Coord) :
  kept <> [] -> spaced min_spacing kept ->
  spaced min_spacing (fold_left (keep_step min_spacing first) rest kept).
Proof.
  revert kept. induction rest as [|p rest IH]; intros kept Hne Hs; [exact Hs|].
  cbn [fold_left]. apply IH; [apply keep_step_nonempty; exact Hne|].
  unfold keep_step. destruct (Rge_dec _ _) as [Hge|_]; [|exact Hs].
  apply (spaced_snoc kept first p Hs); [apply Rge_le; exact Hge | exact Hne].
Qed.

(** Every adjacent pair of the filtered track is at least [min_spacing]
    apart, the last pair included. *)
Lemma keep_spaced_spaced (first : Coord) (rest : list Coord) :
  spaced min_spacing (keep_spaced min_spacing first rest).
Proof. apply fold_keep_spaced; [discriminate | exact I]. Qed.


Lemma spaced_firstn (track : list Coord) (k : nat) :
  spaced min_spacing track -> spaced min_spacing (firstn k track).
Proof.
  revert k. induction track as [|a track IH]; intros k Hs.
  - rewrite firstn_nil. exact I.
  - destruct k as [|k]; [exact I|].
    destruct track as [|b track]; [destruct k; exact I|].
    cbn [spaced] in Hs. destruct Hs as [Hab Hs].
    destruct k as [|k]; [exact I|].
    change (spaced min_spacing (a :: firstn (S k) (b :: track))).
    specialize (IH (S k) Hs). cbn [firstn] in IH |- *.
    cbn [spaced]. split; assumption.
Qed.

End FilterFacts.

(** ** The gap-filling pass and its loop *)

Section GapFacts.

Variable target_count : nat.
Variable gap_threshold : R.

Lemma gap_loop (suf pre acc : list Coord) :
  for_each (gap_step gap_threshold (pre ++ suf))
           (map Z.of_nat (seq (length pre) (length suf - 1))) acc
  = Ok (acc ++ with_midpoints gap_threshold suf).
Proof.
  revert pre acc.
  induction suf as [|p suf IH]; intros pre acc.
  - simpl. rewrite app_nil_r. reflexivity.
  - destruct suf as [|q rest].
    + simpl. rewrite app_nil_r. reflexivity.
    + replace (length (p :: q :: rest) - 1)%nat with (S (length rest)) by (simpl; lia).
      cbn [seq map for_each].
      unfold gap_step at 1; cbv zeta.
      rewrite Nat2Z.id.
      replace (Z.to_nat (Z.of_nat (length pre) + 1)) with (length pre + 1)%nat by lia.
      rewrite index_app_here, index_app_next. cbn [bind].
      rewrite haversine_distance_ok. cbn [bind].
      specialize (IH (pre ++ [p])).
      rewrite <- app_assoc in IH. cbn [app] in IH.
      rewrite length_app in IH. cbn [length] in IH.
      replace (length pre + 1)%nat with (S (length pre)) in IH by lia.
      replace (S (length rest) - 1)%nat with (length rest) in IH by lia.
      change (with_midpoints gap_threshold (p :: q :: rest))
        with ((if Rgt_dec (great_circle p q) gap_threshold
               then [p; midpoint p q] else [p])
                ++ with_midpoints gap_threshold (q :: rest)).
      destruct (Rgt_dec (great_circle p q) gap_threshold);
        cbn [bind]; rewrite IH; rewrite <- !app_assoc; reflexivity.
Qed.

Lemma gap_fill_pass_ok (points : list Coord) (d : Coord) :
  points <> [] ->
  gap_fill_pass gap_threshold points
  = Ok (with_midpoints gap_threshold points ++ [last points d]).
Proof.
  intros H. unfold gap_fill_pass, range.
  replace (Z.to_nat (Z.of_nat (length points) - 1))
    with (length points - 1)%nat by lia.
  pose proof (gap_loop points [] []) as E. cbn [app length] in E.
  rewrite E. cbn [bind app].
  rewrite (index_last_ok points d H). reflexivity.
Qed.

Lemma gap_fill_pass_nil : gap_fill_pass gap_threshold [] = Raise IndexError.
Proof. reflexivity. Qed.


(** A pass over a track without a wide gap inserts nothing. *)
Lemma with_midpoints_idle (points : list Coord) :
  no_wide_gap gap_threshold points ->
  with_midpoints gap_threshold points = removelast points.
Proof.
  induction points as [|p points IH]; intros H; [reflexivity|].
  destruct points as [|q rest]; [reflexivity|].
  cbn [no_wide_gap] in H. destruct H as [Hpq H].
  change (with_midpoints gap_threshold (p :: q :: rest))
    with ((if Rgt_dec (great_circle p q) gap_threshold
           then [p; midpoint p q] else [p])
            ++ with_midpoints gap_threshold (q :: rest)).
  destruct (Rgt_dec _ _) as [Hgt|_]; [contradiction|].
  rewrite (IH H). reflexivity.
Qed.

Lemma gap_fill_pass_idle (points : list Coord) :
  points <> [] -> no_wide_gap gap_threshold points ->
  gap_fill_pass gap_threshold points = Ok points.
Proof.
  intros Hne Hgap. destruct points as [|p0 rest]; [contradiction|].
  rewrite (gap_fill_pass_ok (p0 :: rest) p0 Hne).
  rewrite (with_midpoints_idle _ Hgap).
  rewrite <- app_removelast_last by exact Hne. reflexivity.
Qed.

(** With fewer points than the target and no wide gap left, no number of
    passes ends the loop. *)
Lemma gap_fill_loop_stuck (points : list Coord) (fuel : nat) :
  points <> [] -> no_wide_gap gap_threshold points ->
  (length points < target_count)%nat ->
  gap_fill_loop target_count gap_threshold fuel points = None.
Proof.
  intros Hne Hgap Hlen.
  induction fuel as [|fuel IH]; cbn [gap_fill_loop];
    destruct (Nat.ltb_spec (length points) target_count) as [_|H]; try lia.
  - reflexivity.
  - rewrite (gap_fill_pass_idle points Hne Hgap).
    destruct (Nat.leb_spec target_count (length points)) as [H|_]; [lia|].
    exact IH.
Qed.

(** A loop that exits hands over at least [target_count] points. *)
Lemma gap_fill_loop_reaches (fuel : nat) (points final : list Coord) :
  gap_fill_loop target_count gap_threshold fuel points = Some (Ok final) ->
  (target_count <= length final)%nat.
Proof.
  revert points. induction fuel as [|fuel IH]; intros points; cbn [gap_fill_loop];
    destruct (Nat.ltb_spec (length points) target_count) as [Hlt|Hge];
    intros H; try discriminate; try (injection H as <-; exact Hge).
  destruct (gap_fill_pass gap_threshold points) as [new_points|e]; [|discriminate].
  destruct (Nat.leb_spec target_count (length new_points)) as [Hle|_].
  - injection H as <-. exact Hle.
  - exact (IH _ H).
Qed.





End GapFacts.

(** ** Segments along the equator *)

Section EquatorFacts.

(** Two terms of each side of Machin's series for [PI / 4]. *)
Lemma PI_bounds : 3.1415 < PI < 3.1421.
Proof.
  pose proof (PI_2_3_7_ineq 1) as [Hlo Hhi].
  unfold sum_f_R0, tg_alt, PI_2_3_7_tg, Ratan_seq in Hlo, Hhi.
  simpl in Hlo, Hhi.
  split; lra.
Qed.

(** On the equator a degree of longitude is 111.2 km long. *)
Lemma equator_distance_bounds (x y : R) :
  0 <= y - x <= 180 ->
  (y - x) * 111191 <= great_circle (0, x) (0, y) <= (y - x) * 111213.
Proof.
  intros H. rewrite (great_circle_equator x y H).
  unfold R_earth, radians. pose proof PI_bounds. nra.
Qed.

Lemma fifty_nonzero : (50 : R) <> 0.
Proof. lra. Qed.


Lemma step_count_111m : step_count 50 (0, 0) (0, 0.001) = 2%Z.
Proof.
  unfold step_count.
  pose proof (equator_distance_bounds 0 0.001 ltac:(lra)) as [Hlo Hhi].
  set (d := great_circle (0, 0) (0, 0.001)) in *.
  rewrite int_nonneg by lra.
  rewrite (Zfloor_eq 2 (d / 50)) by lra. reflexivity.
Qed.

Lemma segment_111m :
  segment 50 (0, 0) (0, 0.001) = [(0, 0); (0, 0.0005); (0, 0.001)].
Proof.
  unfold segment; cbv zeta. rewrite step_count_111m.
  change (range (2 + 1)) with [0; 1; 2]%Z.
  cbn [map]. unfold point_at, lat, lon; cbn [fst snd].
  repeat (f_equal; try lra).
Qed.

(** A segment shorter than twice the spacing is its two end points. *)
Lemma segment_single_step (min_spacing : R) (start end_ : Coord) :
  0 < min_spacing ->
  great_circle start end_ < 2 * min_spacing ->
  segment min_spacing start end_ = [start; end_].
Proof.
  intros HS Hd.
  assert (En : step_count min_spacing start end_ = 1%Z).
  { unfold step_count. rewrite max1_int_floor.
    pose proof (great_circle_nonneg start end_) as H0.
    set (q := great_circle start end_ / min_spacing).
    assert (Hq : 0 <= q < 2).
    { unfold q. split.
      - apply Rmult_le_pos; [exact H0 | left; apply Rinv_0_lt_compat; exact HS].
      - apply (Rmult_lt_reg_r min_spacing); [exact HS|].
        unfold Rdiv. rewrite Rmult_assoc, Rinv_l by lra. lra. }
    pose proof (Zfloor_bound q) as [Hf1 Hf2].
    assert (Hlt : (Zfloor q < 2)%Z) by (apply lt_IZR; lra).
    lia. }
  unfold segment; cbv zeta. rewrite En.
  change (range (1 + 1)) with [0; 1]%Z. cbn [map].
  rewrite point_at_first, point_at_last by lia. reflexivity.
Qed.

(** The scenario of two waypoints 111 m apart: three points, all kept. *)
Lemma densify_111m :
  densify 50 [(0, 0); (0, 0.001)] = Ok [(0, 0); (0, 0.0005); (0, 0.001)].
Proof.
  unfold densify. rewrite (all_points_route 50 fifty_nonzero). cbn [bind route].
  rewrite segment_111m, spacing_filter_cons.
  unfold keep_spaced. cbn [fold_left].
  pose proof (equator_distance_bounds 0 0.0005 ltac:(lra)) as [H1 _].
  pose proof (equator_distance_bounds 0.0005 0.001 ltac:(lra)) as [H2 _].
  unfold keep_step at 2. cbn [last].
  destruct (Rge_dec (great_circle (0, 0) (0, 0.0005)) 50) as [_|N]; [|lra].
  unfold keep_step. cbn [app last].
  destruct (Rge_dec (great_circle (0, 0.0005) (0, 0.001)) 50) as [_|N]; [|lra].
  reflexivity.
Qed.


Lemma no_wide_gap_111m :
  no_wide_gap 80 [(0, 0); (0, 0.0005); (0, 0.001)].
Proof.
  pose proof (equator_distance_bounds 0 0.0005 ltac:(lra)) as [_ H1].
  pose proof (equator_distance_bounds 0.0005 0.001 ltac:(lra)) as [_ H2].
  cbn [no_wide_gap]. repeat split; lra.
Qed.

End EquatorFacts.

(** * The claims *)

(** ** The filtered track *)

(** The filtered track starts at the first waypoint, and all its adjacent
    pairs, the last one included, are at least [min_spacing] apart. *)
Lemma densify_spaced (min_spacing : R) (waypoints : list Coord) :
  min_spacing <> 0 ->
  (2 <= length waypoints)%nat ->
  exists track,
    densify min_spacing waypoints = Ok track /\
    hd_error track = hd_error waypoints /\
    spaced min_spacing track.
Proof.
  intros HS Hlen.
  destruct waypoints as [|w0 [|w1 rest]]; try (simpl in Hlen; lia).
  destruct (route_shape min_spacing w0 w1 rest) as (mid & Eroute).
  exists (keep_spaced min_spacing w0 (mid ++ [last rest w1])). split.
  - unfold densify. rewrite (all_points_route min_spacing HS). cbn [bind].
    rewrite Eroute. cbn [app]. apply spacing_filter_cons.
  - split; [apply keep_spaced_head | apply keep_spaced_spaced].
Qed.

(** ** Degenerate waypoint lists *)

(** C4, as stated, at the empty list and at a one-point list: neither call
    returns the degenerate track the claim promises. *)
Lemma densify_degenerate_not_graceful :
  densify 50 [] <> Ok [] /\ densify 50 [(0, 0)] <> Ok [(0, 0)].
Proof. split; discriminate. Qed.

(** C4, amended.  With fewer than two waypoints the accumulation loop does
    not run, the accumulator stays empty, and reading its first element
    raises [IndexError]: both generators raise on the empty list and on a
    single waypoint, whatever the spacing. *)
Theorem densify_degenerate_raises (min_spacing : R) :
  densify min_spacing [] = Raise IndexError /\
  (forall p : Coord, densify min_spacing [p] = Raise IndexError) /\
  (forall (target_count : nat) (gap_threshold : R) (fuel : nat),
     generate_route_coordinates min_spacing target_count gap_threshold fuel []
     = Some (Raise IndexError)) /\
  (forall (target_count : nat) (gap_threshold : R) (fuel : nat) (p : Coord),
     generate_route_coordinates min_spacing target_count gap_threshold fuel [p]
     = Some (Raise IndexError)).
Proof. repeat split. Qed.

(** ** The gap-filling loop *)

(** C5, at the waypoints [[0,0],[0,0.001]] with the constants of the
    Berlin script (50 m spacing, 1000 points, 80 m gaps): the filter keeps
    three points 55.6 m apart, every pass returns the same three points,
    and no number of passes ends the loop. *)
Theorem gap_fill_loop_never_exits :
  forall fuel : nat,
    generate_route_coordinates 50 1000 80 fuel [(0, 0); (0, 0.001)] = None.
Proof.
  intros fuel. unfold generate_route_coordinates.
  rewrite densify_111m. unfold densify_to_target_count.
  rewrite gap_fill_loop_stuck; [reflexivity | discriminate | | cbn [length]; lia].
  exact no_wide_gap_111m.
Qed.



(** ** Symmetry and zeros of the distance *)

Lemma haversine_zero_iff (a b : Coord) :
  haversine_distance a b = Ok 0 <-> great_circle a b = 0.
Proof.
  rewrite haversine_distance_inv. split; intros H; symmetry; exact H.
Qed.

(** C7, as stated, at the north pole: two valid coordinates with different
    longitudes are at distance 0. *)
Lemma haversine_zero_not_identical :
  let a : Coord := (90, 0) in
  let b : Coord := (90, 1e-200) in
  valid a /\ valid b /\ ~ (haversine_distance a b = Ok 0 <-> a = b).
Proof.
  cbv zeta.
  assert (Va : valid (90, 0)) by (unfold valid, lat, lon; cbn [fst snd]; lra).
  assert (Vb : valid (90, 1e-200)) by (unfold valid, lat, lon; cbn [fst snd]; lra).
  split; [exact Va|]. split; [exact Vb|].
  intros [Hzero _].
  assert (Z0 : haversine_distance (90, 0) (90, 1e-200) = Ok 0).
  { apply haversine_zero_iff.
    apply (great_circle_zero_valid _ _ Va Vb). unfold lat, lon; cbn [fst snd].
    split; [reflexivity|]. right; left; reflexivity. }
  specialize (Hzero Z0). injection Hzero as H. lra.
Qed.

(** C7, amended.  For every pair of coordinates the distance is symmetric,
    and it is 0 between a coordinate and itself.  Nothing is claimed in
    the other direction: a distance of 0 does not make two coordinates
    identical. *)
Theorem haversine_symmetric_zero_same_point (a b : Coord) :
  haversine_distance a b = haversine_distance b a /\
  (a = b -> haversine_distance a b = Ok 0).
Proof.
  split.
  - rewrite !haversine_distance_ok. f_equal. apply great_circle_sym.
  - intros ->. apply haversine_zero_iff. apply great_circle_refl.
Qed.

Lemma haversine_symmetric_zero_same_point_witness :
  let a : Coord := (52.5200, 13.4050) in
  let b : Coord := (48.1351, 11.5820) in
  haversine_distance a b = haversine_distance b a /\
  haversine_distance a a = Ok 0.
Proof.
  cbv zeta. split.
  - exact (proj1 (haversine_symmetric_zero_same_point
                    (52.5200, 13.4050) (48.1351, 11.5820))).
  - exact (proj2 (haversine_symmetric_zero_same_point
                    (52.5200, 13.4050) (52.5200, 13.4050)) eq_refl).
Defined.

(** ** One interpolated segment *)




(** ** Truncation to the target count *)

Lemma last_app_nonempty {A : Type} (l1 l2 : list A) (d : A) :
  l2 <> [] -> last (l1 ++ l2) d = last l2 d.
Proof.
  intros H. induction l1 as [|a l1 IH]; [reflexivity|].
  cbn [app]. destruct (l1 ++ l2) as [|b l] eqn:E.
  - destruct l1; [cbn in E; contradiction | discriminate].
  - rewrite <- IH. reflexivity.
Qed.

Lemma skipn_nonempty {A : Type} (l : list A) (k : nat) :
  (k < length l)%nat -> skipn k l <> [].
Proof.
  intros H E. pose proof (length_skipn k l) as L. rewrite E in L.
  simpl in L. lia.
Qed.

(** A route of 222 m with 100 m spacing, a target of 4 points and 80 m
    gaps: three points are kept, one pass inserts two midpoints, and the
    loop exits with five points. *)
Section Overshoot.

Lemma hundred_nonzero : (100 : R) <> 0.
Proof. lra. Qed.

Lemma densify_222m :
  densify 100 [(0, 0); (0, 0.002)] = Ok [(0, 0); (0, 0.001); (0, 0.002)].
Proof.
  unfold densify.
  rewrite (all_points_route 100 hundred_nonzero). cbn [bind route].
  assert (En : step_count 100 (0, 0) (0, 0.002) = 2%Z).
  { unfold step_count.
    pose proof (equator_distance_bounds 0 0.002 ltac:(lra)) as [Hlo Hhi].
    set (d := great_circle (0, 0) (0, 0.002)) in *.
    rewrite int_nonneg by lra.
    rewrite (Zfloor_eq 2 (d / 100)) by lra. reflexivity. }
  assert (Es : segment 100 (0, 0) (0, 0.002) = [(0, 0); (0, 0.001); (0, 0.002)]).
  { unfold segment; cbv zeta. rewrite En.
    change (range (2 + 1)) with [0; 1; 2]%Z.
    cbn [map]. unfold point_at, lat, lon; cbn [fst snd].
    repeat (f_equal; try lra). }
  rewrite Es, spacing_filter_cons.
  unfold keep_spaced. cbn [fold_left].
  pose proof (equator_distance_bounds 0 0.001 ltac:(lra)) as [H1 _].
  pose proof (equator_distance_bounds 0.001 0.002 ltac:(lra)) as [H2 _].
  unfold keep_step at 2. cbn [last].
  destruct (Rge_dec (great_circle (0, 0) (0, 0.001)) 100) as [_|N]; [|lra].
  unfold keep_step. cbn [app last].
  destruct (Rge_dec (great_circle (0, 0.001) (0, 0.002)) 100) as [_|N]; [|lra].
  reflexivity.
Qed.

Lemma gap_fill_pass_222m :
  gap_fill_pass 80 [(0, 0); (0, 0.001); (0, 0.002)]
  = Ok [(0, 0); (0, 0.0005); (0, 0.001); (0, 0.0015); (0, 0.002)].
Proof.
  rewrite (gap_fill_pass_ok 80 _ (0, 0)) by discriminate.
  pose proof (equator_distance_bounds 0 0.001 ltac:(lra)) as [H1 _].
  pose proof (equator_distance_bounds 0.001 0.002 ltac:(lra)) as [H2 _].
  cbn [with_midpoints last].
  destruct (Rgt_dec (great_circle (0, 0) (0, 0.001)) 80) as [_|N]; [|lra].
  destruct (Rgt_dec (great_circle (0, 0.001) (0, 0.002)) 80) as [_|N]; [|lra].
  cbn [app]. unfold midpoint, lat, lon; cbn [fst snd].
  repeat (f_equal; try lra).
Qed.

Lemma gap_fill_loop_222m :
  gap_fill_loop 4 80 1 [(0, 0); (0, 0.001); (0, 0.002)]
  = Some (Ok [(0, 0); (0, 0.0005); (0, 0.001); (0, 0.0015); (0, 0.002)]).
Proof.
  cbn [gap_fill_loop]. rewrite gap_fill_pass_222m. reflexivity.
Qed.

End Overshoot.

(** C9.  When the gap-filling loop ends with more than [target_count]
    points, the generator returns exactly the first [target_count] of
    them: the result has [target_count] points, the rest of the sequence
    is dropped, and the dropped part holds the last point of the
    sequence. *)
Theorem overshoot_keeps_prefix (min_spacing : R) (target_count : nat)
        (gap_threshold : R) (fuel : nat)
        (waypoints filtered_points final : list Coord) (d : Coord) :
  densify min_spacing waypoints = Ok filtered_points ->
  gap_fill_loop target_count gap_threshold fuel filtered_points = Some (Ok final) ->
  (target_count < length final)%nat ->
  generate_route_coordinates min_spacing target_count gap_threshold fuel waypoints
  = Some (Ok (firstn target_count final)) /\
  length (firstn target_count final) = target_count /\
  final = firstn target_count final ++ skipn target_count final /\
  skipn target_count final <> [] /\
  last (skipn target_count final) d = last final d.
Proof.
  intros Hd Hloop Hlen.
  assert (Hne : skipn target_count final <> []) by (apply skipn_nonempty; exact Hlen).
  split.
  { unfold generate_route_coordinates. rewrite Hd.
    unfold densify_to_target_count. rewrite Hloop. reflexivity. }
  split; [apply firstn_length_le; lia|].
  split; [symmetry; apply firstn_skipn|].
  split; [exact Hne|].
  rewrite <- (firstn_skipn target_count final) at 2.
  symmetry. apply last_app_nonempty. exact Hne.
Qed.

Lemma overshoot_keeps_prefix_witness :
  let final : list Coord :=
    [(0, 0); (0, 0.0005); (0, 0.001); (0, 0.0015); (0, 0.002)] in
  densify 100 [(0, 0); (0, 0.002)] = Ok [(0, 0); (0, 0.001); (0, 0.002)] /\
  gap_fill_loop 4 80 1 [(0, 0); (0, 0.001); (0, 0.002)] = Some (Ok final) /\
  lt 4%nat (length final) /\
  generate_route_coordinates 100 4 80 1 [(0, 0); (0, 0.002)]
  = Some (Ok (firstn 4 final)) /\
  length (firstn 4 final) = 4%nat /\
  final = firstn 4 final ++ skipn 4 final /\
  skipn 4 final <> [] /\
  last (skipn 4 final) (0, 0) = last final (0, 0).
Proof.
  cbv zeta.
  split; [exact densify_222m|].
  split; [exact gap_fill_loop_222m|].
  split; [cbn [length]; lia|].
  apply (overshoot_keeps_prefix 100 4 80 1 [(0, 0); (0, 0.002)]
           [(0, 0); (0, 0.001); (0, 0.002)] _ (0, 0)
           densify_222m gap_fill_loop_222m).
  cbn [length]; lia.
Defined.

(** ** Division in [interpolate_points] *)



(** * The two scripts *)

Section Scripts.

Lemma with_midpoints_head (gap_threshold : R) (p q : Coord) (rest : list Coord) :
  hd_error (with_midpoints gap_threshold (p :: q :: rest)) = Some p.
Proof.
  change (with_midpoints gap_threshold (p :: q :: rest))
    with ((if Rgt_dec (great_circle p q) gap_threshold
           then [p; midpoint p q] else [p])
            ++ with_midpoints gap_threshold (q :: rest)).
  destruct (Rgt_dec _ _); reflexivity.
Qed.

(** A pass over a non-empty track keeps its first point. *)
Lemma gap_fill_pass_head (gap_threshold : R) (points : list Coord) :
  points <> [] ->
  exists new_points,
    gap_fill_pass gap_threshold points = Ok new_points /\
    hd_error new_points = hd_error points.
Proof.
  intros Hne. destruct points as [|p [|q rest]]; [contradiction| |].
  - exists [p]. split; reflexivity.
  - rewrite (gap_fill_pass_ok gap_threshold (p :: q :: rest) p Hne).
    eexists; split; [reflexivity|].
    pose proof (with_midpoints_head gap_threshold p q rest) as H.
    destruct (with_midpoints gap_threshold (p :: q :: rest)); [discriminate|].
    exact H.
Qed.

(** On a non-empty track the loop never raises: it either uses up its
    passes or exits with at least [target_count] points that start where
    the track started. *)
Lemma gap_fill_loop_outcome (target_count : nat) (gap_threshold : R)
      (fuel : nat) (points : list Coord) :
  points <> [] ->
  gap_fill_loop target_count gap_threshold fuel points = None \/
  exists final,
    gap_fill_loop target_count gap_threshold fuel points = Some (Ok final) /\
    (target_count <= length final)%nat /\
    hd_error final = hd_error points.
Proof.
  revert points. induction fuel as [|fuel IH]; intros points Hne;
    cbn [gap_fill_loop];
    destruct (Nat.ltb_spec (length points) target_count) as [Hlt|Hge];
    try (right; exists points; repeat split; assumption).
  - left; reflexivity.
  - destruct (gap_fill_pass_head gap_threshold points Hne) as (np & E & Hh).
    rewrite E.
    assert (Hnp : np <> []).
    { destruct points; [contradiction|]. destruct np; discriminate. }
    destruct (Nat.leb_spec target_count (length np)) as [Hle|_].
    + right. exists np. repeat split; assumption.
    + destruct (IH np Hnp) as [N | (final & Ef & Hl & Hf)]; [left; exact N|].
      right. exists final. repeat split; [exact Ef | exact Hl |].
      rewrite Hf. exact Hh.
Qed.

(** Whenever the Berlin generator returns a track, the track has exactly
    [target_count] points. *)
Lemma returned_track_has_target_count (min_spacing : R) (target_count : nat)
      (gap_threshold : R) (fuel : nat) (waypoints track : list Coord) :
  generate_route_coordinates min_spacing target_count gap_threshold fuel waypoints
  = Some (Ok track) ->
  length track = target_count.
Proof.
  unfold generate_route_coordinates, densify_to_target_count.
  destruct (densify min_spacing waypoints) as [filtered|e]; [|discriminate].
  destruct (gap_fill_loop target_count gap_threshold fuel filtered)
    as [[final|e]|] eqn:E; try discriminate.
  intros H. injection H as <-.
  apply gap_fill_loop_reaches in E.
  unfold slice_to. apply firstn_length_le. exact E.
Qed.

(** When the filter already yields [target_count] points or more, the loop
    does not run: the Berlin generator returns the first [target_count]
    filtered points, which are still [min_spacing] apart. *)
Lemma enough_points_prefix (min_spacing : R) (target_count : nat)
      (gap_threshold : R) (fuel : nat) (waypoints : list Coord) :
  min_spacing <> 0 ->
  (2 <= length waypoints)%nat ->
  exists filtered,
    densify min_spacing waypoints = Ok filtered /\
    ((target_count <= length filtered)%nat ->
     generate_route_coordinates min_spacing target_count gap_threshold fuel waypoints
     = Some (Ok (firstn target_count filtered)) /\
     spaced min_spacing (firstn target_count filtered)).
Proof.
  intros HS Hlen.
  destruct (densify_spaced min_spacing waypoints HS Hlen) as (filtered & E & _ & Hsp).
  exists filtered. split; [exact E|]. intros Hge. split.
  - unfold generate_route_coordinates, densify_to_target_count. rewrite E.
    destruct fuel; cbn [gap_fill_loop];
      destruct (Nat.ltb_spec (length filtered) target_count); try lia; reflexivity.
  - apply spaced_firstn. exact Hsp.
Qed.

(** The gap-filling pass trades the spacing for the point count: with a
    target of three points, two waypoints 89 m apart get a midpoint
    44.5 m from each of them, closer than the 50 m spacing. *)
Lemma gap_filling_breaks_spacing :
  generate_route_coordinates 50 3 80 1 [(0, 0); (0, 0.0008)]
  = Some (Ok [(0, 0); (0, 0.0004); (0, 0.0008)]) /\
  ~ spaced 50 [(0, 0); (0, 0.0004); (0, 0.0008)].
Proof.
  pose proof (equator_distance_bounds 0 0.0008 ltac:(lra)) as [Hlo Hhi].
  pose proof (equator_distance_bounds 0 0.0004 ltac:(lra)) as [_ Hhalf].
  split.
  - unfold generate_route_coordinates, densify.
    rewrite (all_points_route 50 fifty_nonzero). cbn [bind route].
    rewrite segment_single_step by lra.
    rewrite spacing_filter_cons.
    unfold keep_spaced. cbn [fold_left]. unfold keep_step. cbn [last].
    destruct (Rge_dec (great_circle (0, 0) (0, 0.0008)) 50) as [_|N]; [|lra].
    cbn [app]. unfold densify_to_target_count. cbn [gap_fill_loop length Nat.ltb Nat.leb].
    rewrite (gap_fill_pass_ok 80 _ (0, 0)) by discriminate.
    cbn [with_midpoints last].
    destruct (Rgt_dec (great_circle (0, 0) (0, 0.0008)) 80) as [_|N]; [|lra].
    cbn [app length Nat.leb]. unfold slice_to. cbn [firstn].
    unfold midpoint, lat, lon; cbn [fst snd].
    repeat (f_equal; try lra).
  - cbn [spaced]. intros [H _]. lra.
Qed.

(** The Wronki generator returns a track that starts at the town centre of
    Wronki and whose adjacent points are at least 10 m apart. *)
Lemma wronki_track :
  exists track,
    Wronki.generate_route_coordinates = Ok track /\
    hd_error track = Some (52.7065, 16.3894) /\
    spaced 10 track.
Proof.
  unfold Wronki.generate_route_coordinates.
  apply (densify_spaced 10 Wronki.waypoints); [lra|].
  unfold Wronki.waypoints. cbn [length]. lia.
Qed.

(** The Berlin generator does not raise: for any bound on the passes it
    either is still looping or has returned exactly 1000 points. *)
Lemma berlin_outcome (fuel : nat) :
  Berlin.generate_route_coordinates fuel = None \/
  exists track,
    Berlin.generate_route_coordinates fuel = Some (Ok track) /\
    length track = 1000%nat.
Proof.
  unfold Berlin.generate_route_coordinates.
  destruct (densify_spaced 50 Berlin.waypoints) as (filtered & E & Hh & _);
    [lra | unfold Berlin.waypoints; cbn [length]; lia |].
  assert (Hne : filtered <> []).
  { unfold Berlin.waypoints in Hh. destruct filtered; discriminate. }
  destruct (gap_fill_loop_outcome 1000 80 fuel filtered Hne)
    as [N | (final & Ef & Hl & _)].
  - left. unfold generate_route_coordinates, densify_to_target_count.
    rewrite E, N. reflexivity.
  - right. exists (firstn 1000 final). split.
    + unfold generate_route_coordinates, densify_to_target_count.
      rewrite E, Ef. reflexivity.
    + apply firstn_length_le. exact Hl.
Qed.

End Scripts.

(** * Further properties *)

(** ** The distance *)


(** ** [interpolate_points] on its own *)

Lemma interpolated_head (start end_ : Coord) (n : Z) :
  (1 <= n)%Z ->
  hd_error (map (point_at start end_ n) (range (n + 1))) = Some start.
Proof.
  intros Hn. rewrite range_succ by lia.
  destruct (range_head n Hn) as (rest & E). rewrite E.
  rewrite map_app. cbn [map app hd_error].
  rewrite point_at_first by lia. reflexivity.
Qed.

(** X4.  With a positive count [interpolate_points] returns
    [num_points + 1] points, the first of which is [start]; with a
    negative count it returns the empty list and raises nothing. *)
Theorem interpolate_points_endpoints (start end_ : Coord) :
  (forall num_points : Z, (1 <= num_points)%Z ->
     exists points,
       interpolate_points start end_ num_points = Ok points /\
       length points = S (Z.to_nat num_points) /\
       hd_error points = Some start) /\
  (forall num_points : Z, (num_points < 0)%Z ->
     interpolate_points start end_ num_points = Ok []).
Proof.
  split.
  - intros n Hn. rewrite interpolate_points_ok by lia.
    eexists; split; [reflexivity|].
    split; [rewrite length_map, range_length; lia|].
    apply interpolated_head. exact Hn.
  - intros n Hn. apply interpolate_points_negative. exact Hn.
Qed.

Lemma interpolate_points_endpoints_witness :
  (1 <= 4)%Z /\ (-3 < 0)%Z /\
  (exists points,
     interpolate_points (52.5200, 13.4050) (52.4500, 13.3500) 4 = Ok points /\
     length points = S (Z.to_nat 4) /\
     hd_error points = Some (52.5200, 13.4050)) /\
  interpolate_points (52.5200, 13.4050) (52.4500, 13.3500) (-3) = Ok [].
Proof.
  assert (H1 : (1 <= 4)%Z) by lia.
  assert (H2 : (-3 < 0)%Z) by lia.
  split; [exact H1|]. split; [exact H2|]. split.
  - exact (proj1 (interpolate_points_endpoints (52.5200, 13.4050) (52.4500, 13.3500))
             4%Z H1).
  - exact (proj2 (interpolate_points_endpoints (52.5200, 13.4050) (52.4500, 13.3500))
             (-3)%Z H2).
Defined.

(** ** The accumulated points *)

Section SubseqFacts.

Context {A : Type}.

Lemma subseq_refl (l : list A) : subseq l l.
Proof. induction l; constructor; assumption. Qed.

Lemma subseq_nil_l (l : list A) : subseq [] l.
Proof. induction l; constructor; assumption. Qed.

Lemma subseq_app (l1 l2 m1 m2 : list A) :
  subseq l1 m1 -> subseq l2 m2 -> subseq (l1 ++ l2) (m1 ++ m2).
Proof.
  intros H1 H2. induction H1; cbn [app]; try (constructor; assumption).
  exact H2.
Qed.


Lemma subseq_app_r (l m1 m2 : list A) : subseq l m1 -> subseq l (m1 ++ m2).
Proof.
  intros H. rewrite <- (app_nil_r l).
  apply subseq_app; [exact H | apply subseq_nil_l].
Qed.

Lemma subseq_trans (l1 l2 l3 : list A) :
  subseq l1 l2 -> subseq l2 l3 -> subseq l1 l3.
Proof.
  intros H12 H23. revert l1 H12.
  induction H23 as [|x l2 l3 H IH|x l2 l3 H IH]; intros l1 H12.
  - exact H12.
  - constructor. apply IH. exact H12.
  - inversion H12; subst.
    + apply subseq_skip. apply IH. assumption.
    + apply subseq_keep. apply IH. assumption.
Qed.

End SubseqFacts.

Section AccumulatorFacts.

Variable min_spacing : R.



End AccumulatorFacts.





(** ** The spacing filter on its own *)

Section FilterMore.

Variable min_spacing : R.








End FilterMore.







(** ** The gap-filling pass on its own *)

Section GapMore.

Variable gap_threshold : R.

Lemma with_midpoints_unfold (p q : Coord) (rest : list Coord) :
  with_midpoints gap_threshold (p :: q :: rest)
  = (if Rgt_dec (great_circle p q) gap_threshold
     then [p; midpoint p q] else [p])
      ++ with_midpoints gap_threshold (q :: rest).
Proof. reflexivity. Qed.

Lemma wide_gaps_unfold (p q : Coord) (rest : list Coord) :
  wide_gaps gap_threshold (p :: q :: rest)
  = ((if Rgt_dec (great_circle p q) gap_threshold then 1 else 0)
     + wide_gaps gap_threshold (q :: rest))%nat.
Proof. reflexivity. Qed.

Lemma with_midpoints_subseq (points : list Coord) :
  subseq (removelast points) (with_midpoints gap_threshold points).
Proof.
  induction points as [|p points IH]; [constructor|].
  destruct points as [|q rest]; [constructor|].
  rewrite with_midpoints_unfold.
  change (removelast (p :: q :: rest)) with (p :: removelast (q :: rest)).
  destruct (Rgt_dec _ _); cbn [app].
  - apply subseq_keep. apply subseq_skip. exact IH.
  - apply subseq_keep. exact IH.
Qed.

Lemma with_midpoints_count (points : list Coord) :
  S (length (with_midpoints gap_threshold points))
  = (length points + wide_gaps gap_threshold points
     + (if length points =? 0 then 1 else 0))%nat.
Proof.
  induction points as [|p points IH]; [reflexivity|].
  destruct points as [|q rest]; [reflexivity|].
  rewrite with_midpoints_unfold, wide_gaps_unfold, length_app.
  cbn [length Nat.eqb] in IH |- *.
  destruct (Rgt_dec _ _); cbn [length]; lia.
Qed.


Lemma wide_gaps_none (points : list Coord) :
  wide_gaps gap_threshold points = 0%nat <-> no_wide_gap gap_threshold points.
Proof.
  induction points as [|p points IH]; [split; [intros; exact I | reflexivity]|].
  destruct points as [|q rest]; [split; [intros; exact I | reflexivity]|].
  rewrite wide_gaps_unfold. cbn [no_wide_gap].
  destruct (Rgt_dec (great_circle p q) gap_threshold) as [Hw|Hn].
  - split; [intros H; lia | intros [H _]; contradiction].
  - rewrite Nat.add_0_l, IH. split; [intros H; split; assumption | intros [_ H]; exact H].
Qed.

End GapMore.

Lemma gap_fill_pass_inserts (gap_threshold : R)
      (filtered_points : list Coord) (d : Coord) :
  filtered_points <> [] ->
  exists new_points,
    gap_fill_pass gap_threshold filtered_points = Ok new_points /\
    subseq filtered_points new_points /\
    hd_error new_points = hd_error filtered_points /\
    last new_points d = last filtered_points d.
Proof.
  intros Hne.
  rewrite (gap_fill_pass_ok gap_threshold filtered_points d Hne).
  eexists; split; [reflexivity|]. split.
  - rewrite (app_removelast_last d Hne) at 1.
    apply subseq_app; [apply with_midpoints_subseq | apply subseq_refl].
  - split; [|apply last_last].
    destruct filtered_points as [|p [|q rest]]; [contradiction | reflexivity |].
    pose proof (with_midpoints_head gap_threshold p q rest) as H.
    destruct (with_midpoints gap_threshold (p :: q :: rest)); [discriminate|].
    exact H.
Qed.





(** X14.  A pass returns its input unchanged exactly when no adjacent pair
    of the input is more than [gap_threshold] apart. *)
Theorem gap_fill_pass_fixed_point (gap_threshold : R)
        (filtered_points : list Coord) :
  filtered_points <> [] ->
  (gap_fill_pass gap_threshold filtered_points = Ok filtered_points <->
   no_wide_gap gap_threshold filtered_points).
Proof.
  intros Hne. split.
  - intros E. destruct filtered_points as [|p0 rest]; [contradiction|].
    rewrite (gap_fill_pass_ok gap_threshold (p0 :: rest) p0 Hne) in E.
    pose proof (with_midpoints_count gap_threshold (p0 :: rest)) as Hc.
    set (inserted := with_midpoints gap_threshold (p0 :: rest)) in *.
    assert (El : length (inserted ++ [last (p0 :: rest) p0])
                 = length (p0 :: rest)) by congruence.
    rewrite length_app in El.
    cbn [length Nat.eqb] in *.
    apply wide_gaps_none. lia.
  - apply gap_fill_pass_idle. exact Hne.
Qed.

Lemma gap_fill_pass_fixed_point_witness :
  let track : list Coord := [(0, 0); (0, 0.0005); (0, 0.001)] in
  track <> [] /\
  (gap_fill_pass 80 track = Ok track <-> no_wide_gap 80 track).
Proof.
  cbv zeta.
  assert (H : [(0, 0); (0, 0.0005); (0, 0.001)] <> ([] : list Coord)) by discriminate.
  split; [exact H|].
  exact (gap_fill_pass_fixed_point 80 _ H).
Defined.

(** ** The generators as a whole *)




(** X18.  When the filter already yields [target_count] points or more,
    the Berlin generator makes no pass at all: for every bound it returns
    the first [target_count] filtered points, which are still at least
    [min_spacing] apart. *)
Theorem generator_skips_loop (min_spacing : R) (target_count : nat)
        (gap_threshold : R) (waypoints filtered_points : list Coord) :
  min_spacing <> 0 ->
  (2 <= length waypoints)%nat ->
  densify min_spacing waypoints = Ok filtered_points ->
  (target_count <= length filtered_points)%nat ->
  (forall fuel : nat,
     generate_route_coordinates min_spacing target_count gap_threshold
                                fuel waypoints
     = Some (Ok (firstn target_count filtered_points))) /\
  spaced min_spacing (firstn target_count filtered_points).
Proof.
  intros HS Hlen E Hge.
  destruct (densify_spaced min_spacing waypoints HS Hlen) as (f & Ef & _ & Hsp).
  assert (f = filtered_points) by congruence. subst f.
  split.
  - intros fuel. unfold generate_route_coordinates, densify_to_target_count.
    rewrite E.
    destruct fuel; cbn [gap_fill_loop];
      destruct (Nat.ltb_spec (length filtered_points) target_count);
      try lia; reflexivity.
  - apply spaced_firstn. exact Hsp.
Qed.

Lemma generator_skips_loop_witness :
  let waypoints : list Coord := [(0, 0); (0, 0.001)] in
  let filtered_points : list Coord := [(0, 0); (0, 0.0005); (0, 0.001)] in
  (50 : R) <> 0 /\
  (2 <= length waypoints)%nat /\
  densify 50 waypoints = Ok filtered_points /\
  (2 <= length filtered_points)%nat /\
  (forall fuel : nat,
     generate_route_coordinates 50 2 80 fuel waypoints
     = Some (Ok (firstn 2 filtered_points))) /\
  spaced 50 (firstn 2 filtered_points).
Proof.
  cbv zeta.
  assert (Hlen : le 2%nat (length [(0, 0); (0, 0.001)])) by (simpl; lia).
  assert (Hge : le 2%nat (length [(0, 0); (0, 0.0005); (0, 0.001)])) by (simpl; lia).
  split; [exact fifty_nonzero|]. split; [exact Hlen|].
  split; [exact densify_111m|]. split; [exact Hge|].
  exact (generator_skips_loop 50 2 80 _ _ fifty_nonzero Hlen densify_111m Hge).
Defined.

(** ** The spacing report of [main] *)

Section ReportFacts.

Lemma range_from_1 (n : nat) :
  range_from 1 (Z.of_nat n) = map (fun k => (1 + Z.of_nat k)%Z) (seq 0 (n - 1)).
Proof.
  unfold range_from, range. rewrite map_map.
  replace (Z.to_nat (Z.of_nat n - 1)) with (n - 1)%nat by lia. reflexivity.
Qed.

(** The iterations from index [1 + length pre] on fold the remaining
    distances into the accumulators. *)
Lemma stats_loop (suf pre : list Coord) (s : stats) :
  for_each (stats_step (pre ++ suf))
           (map (fun k => (1 + Z.of_nat k)%Z) (seq (length pre) (length suf - 1))) s
  = Ok (fold_left add_gap (gaps suf) s).
Proof.
  revert pre s. induction suf as [|p suf IH]; intros pre s; [reflexivity|].
  destruct suf as [|q rest]; [reflexivity|].
  replace (length (p :: q :: rest) - 1)%nat with (S (length rest)) by (simpl; lia).
  cbn [seq map for_each]. unfold stats_step at 1.
  replace (Z.to_nat (1 + Z.of_nat (length pre) - 1)) with (length pre) by lia.
  replace (Z.to_nat (1 + Z.of_nat (length pre))) with (length pre + 1)%nat by lia.
  rewrite index_app_here, index_app_next. cbn [bind].
  rewrite haversine_distance_ok. cbn [bind].
  specialize (IH (pre ++ [p])).
  rewrite <- app_assoc in IH. cbn [app] in IH.
  rewrite length_app in IH. cbn [length] in IH.
  replace (length pre + 1)%nat with (S (length pre)) in IH by lia.
  replace (S (length rest) - 1)%nat with (length rest) in IH by lia.
  rewrite IH. reflexivity.
Qed.

Lemma verify_spacing_fold (coordinates : list Coord) :
  verify_spacing coordinates
  = Ok (fold_left add_gap (gaps coordinates) (mkStats 0 Infinity 0)).
Proof.
  unfold verify_spacing. rewrite range_from_1.
  exact (stats_loop coordinates [] _).
Qed.










End ReportFacts.

Lemma spacing_report_ok (coordinates : list Coord) :
  coordinates <> [] ->
  let s := fold_left add_gap (gaps coordinates) (mkStats 0 Infinity 0) in
  spacing_report coordinates
  = Ok (mkReport (total_distance s / 1000) (min_distance s) (max_distance s)
                 (total_distance s / INR (length coordinates))).
Proof.
  intros Hne s. unfold spacing_report. rewrite verify_spacing_fold. cbn [bind].
  fold s. unfold fdiv.
  destruct (Req_dec_T (IZR (Z.of_nat (length coordinates))) 0) as [E|_].
  - exfalso. apply eq_IZR in E. destruct coordinates; [contradiction | simpl in E; lia].
  - cbn [bind]. rewrite <- INR_IZR_INZ. reflexivity.
Qed.







(** X21.  The report on degenerate tracks: on the empty track the average
    raises [ZeroDivisionError]; on a track of one point the loop does not
    run and the report is 0 km, an infinite minimum, a maximum of 0 and an
    average of 0. *)
Theorem spacing_report_degenerate :
  spacing_report [] = Raise ZeroDivisionError /\
  forall p : Coord,
    exists r,
      spacing_report [p] = Ok r /\
      total_km r = 0 /\ minimum r = Infinity /\ maximum r = 0 /\ average r = 0.
Proof.
  split.
  - unfold spacing_report. rewrite verify_spacing_fold. cbn [bind gaps fold_left].
    unfold fdiv. cbn [length Z.of_nat total_distance].
    destruct (Req_dec_T 0 0) as [_|N]; [reflexivity | contradiction].
  - intros p. rewrite (spacing_report_ok [p]) by discriminate.
    eexists; split; [reflexivity|].
    cbn [gaps fold_left total_km minimum maximum average total_distance
         min_distance max_distance length INR].
    repeat split; lra.
Qed.


(** ** Formatting *)

Section RoundFacts.


Lemma round_half_even_integer (z : Z) : round_half_even (IZR z) = z.
Proof.
  unfold round_half_even; cbv zeta. rewrite ZfloorZ.
  destruct (Rlt_dec (IZR z - IZR z) (1 / 2)) as [_|N]; [reflexivity | lra].
Qed.




Lemma round6_idempotent (x : R) : round6 (round6 x) = round6 x.
Proof.
  unfold round6 at 1.
  replace (round6 x * 1000000) with (IZR (round_half_even (x * 1000000)))
    by (unfold round6; field).
  rewrite round_half_even_integer. reflexivity.
Qed.



End RoundFacts.



(** ** More on the loops *)

(** X24.  A loop that exits has only inserted points: the track it was
    entered with is a subsequence of the track it hands over, with the
    same first and the same last point.  The last point is lost, if at
    all, only by the final slice. *)
Theorem gap_fill_loop_only_inserts (target_count : nat) (gap_threshold : R)
        (fuel : nat) (filtered_points final : list Coord) (d : Coord) :
  filtered_points <> [] ->
  gap_fill_loop target_count gap_threshold fuel filtered_points = Some (Ok final) ->
  subseq filtered_points final /\
  hd_error final = hd_error filtered_points /\
  last final d = last filtered_points d.
Proof.
  revert filtered_points. induction fuel as [|fuel IH]; intros points Hne;
    cbn [gap_fill_loop];
    destruct (Nat.ltb_spec (length points) target_count) as [Hlt|Hge];
    intros H; try discriminate;
    try (injection H as <-; split; [apply subseq_refl | split; reflexivity]).
  destruct (gap_fill_pass_inserts gap_threshold points d Hne)
    as (np & Epass & Hsub & Hhd & Hlast).
  rewrite Epass in H.
  assert (Hnp : np <> []).
  { destruct points; [contradiction|]. destruct np; discriminate. }
  destruct (Nat.leb_spec target_count (length np)) as [Hdone|Hshort].
  - injection H as <-. repeat split; assumption.
  - destruct (IH np Hnp H) as (Hs & Hh & Hl).
    split; [exact (subseq_trans _ _ _ Hsub Hs)|].
    split; congruence.
Qed.

Lemma gap_fill_loop_only_inserts_witness :
  let track : list Coord := [(0, 0); (0, 0.001); (0, 0.002)] in
  let final : list Coord :=
    [(0, 0); (0, 0.0005); (0, 0.001); (0, 0.0015); (0, 0.002)] in
  track <> [] /\
  gap_fill_loop 4 80 1 track = Some (Ok final) /\
  subseq track final /\
  hd_error final = hd_error track /\
  last final (0, 0) = last track (0, 0).
Proof.
  cbv zeta.
  assert (H : [(0, 0); (0, 0.001); (0, 0.002)] <> ([] : list Coord)) by discriminate.
  split; [exact H|]. split; [exact gap_fill_loop_222m|].
  exact (gap_fill_loop_only_inserts 4 80 1 _ _ (0, 0) H gap_fill_loop_222m).
Defined.

(** X25.  The step count of a segment, by the sign of the spacing.  For a
    positive spacing and a distance of at least one spacing, it is the
    number of whole spacings in the distance; for a shorter distance, or a
    negative spacing, it is 1; for a zero spacing the division raises
    [ZeroDivisionError]. *)
Theorem num_intermediate_cases (distance : R) :
  0 <= distance ->
  (forall min_spacing : R, 0 < min_spacing ->
     exists n,
       num_intermediate min_spacing distance = Ok n /\
       (1 <= n)%Z /\
       (min_spacing <= distance ->
        IZR n * min_spacing <= distance < (IZR n + 1) * min_spacing) /\
       (distance < min_spacing -> n = 1%Z)) /\
  (forall min_spacing : R, min_spacing < 0 ->
     num_intermediate min_spacing distance = Ok 1%Z) /\
  num_intermediate 0 distance = Raise ZeroDivisionError.
Proof.
  intros Hd. split; [|split].
  - intros S HS. rewrite num_intermediate_ok by lra.
    eexists; split; [reflexivity|].
    assert (Hq : 0 <= distance / S).
    { apply Rmult_le_pos; [exact Hd | left; apply Rinv_0_lt_compat; exact HS]. }
    rewrite int_nonneg by exact Hq.
    pose proof (Zfloor_bound (distance / S)) as [Hf1 Hf2].
    assert (Ed : distance = distance / S * S) by (field; lra).
    split; [lia|]. split.
    + intros Hge.
      assert (H1 : (1 <= Zfloor (distance / S))%Z).
      { apply Zfloor_lub. apply (Rmult_le_reg_r S); [exact HS|]. rewrite <- Ed. lra. }
      rewrite Z.max_r by exact H1.
      set (q := distance / S) in *. set (f := IZR (Zfloor q)) in *.
      split; nra.
    + intros Hlt.
      assert (H1 : (Zfloor (distance / S) < 1)%Z).
      { apply lt_IZR.
        assert (distance / S < 1).
        { apply (Rmult_lt_reg_r S); [exact HS|]. rewrite <- Ed. lra. }
        lra. }
      lia.
  - intros S HS. rewrite num_intermediate_ok by lra. f_equal.
    rewrite max1_int_floor.
    assert (Hq : distance / S <= 0).
    { unfold Rdiv. assert (/ S < 0) by (apply Rinv_lt_0_compat; exact HS). nra. }
    pose proof (Zfloor_bound (distance / S)) as [Hf1 _].
    assert (H1 : (Zfloor (distance / S) <= 0)%Z) by (apply le_IZR; lra).
    lia.
  - unfold num_intermediate, fdiv.
    destruct (Req_dec_T 0 0) as [_|N]; [reflexivity | contradiction].
Qed.

Lemma num_intermediate_cases_witness :
  0 <= 120 /\ 0 < 50 /\ 50 <= 120 /\ -50 < 0 /\
  (exists n,
     num_intermediate 50 120 = Ok n /\
     (1 <= n)%Z /\
     IZR n * 50 <= 120 < (IZR n + 1) * 50) /\
  num_intermediate (-50) 120 = Ok 1%Z /\
  num_intermediate 0 120 = Raise ZeroDivisionError.
Proof.
  assert (H0 : 0 <= 120) by lra.
  assert (H1 : 0 < 50) by lra.
  assert (H2 : 50 <= 120) by lra.
  assert (H3 : -50 < 0) by lra.
  split; [exact H0|]. split; [exact H1|]. split; [exact H2|]. split; [exact H3|].
  destruct (num_intermediate_cases 120 H0) as (Hpos & Hneg & Hzero).
  split.
  - destruct (Hpos 50 H1) as (n & En & Hn & Hge & _).
    exists n. split; [exact En|]. split; [exact Hn | exact (Hge H2)].
  - split; [exact (Hneg (-50) H3) | exact Hzero].
Defined.





(** * The track the generators return *)


(** ** Endpoints *)




(** ** Spacing *)

Section EquatorRow.










End EquatorRow.



